(** * mfctscan: the scan, resolve and sink stages

    A shallow embedding of [scanner.go], [resolver.go] and the output loop of
    [main.go].  What the program takes from outside the repository (the HTTP
    client, gzip, the JSON decoder, [strings.TrimSpace], the DNS resolver) is
    a parameter, gathered in the class [Env]: the theorems hold for every
    behaviour of these. *)

From Stdlib Require Import ZArith String Ascii Strings.Byte List Lia.
From stdpp Require Import base option list gmap strings pretty.
Import ListNotations.

Set Warnings "-register-all,-clear-no-such-hyp".
Local Open Scope string_scope.
Local Open Scope Z_scope.

#[global] Instance byte_eq_decision : EqDecision byte := Byte.byte_eq_dec.

(** A Go [error] is modelled by its message; [None] is the nil error. *)
Definition error := string.

(** [fmt.Errorf("<msg>: %w", err)]. *)
Definition wrap (msg : string) (err : error) : error := msg +:+ ": " +:+ err.

(** A call either returns or panics (a run-time error such as a slice
    bound out of range). *)
Inductive Outcome (A : Type) : Type :=
  | Return (a : A)
  | Panic (msg : string).
Arguments Return {A} a.
Arguments Panic {A} msg.

Definition bindO {A B} (o : Outcome A) (k : A → Outcome B) : Outcome B :=
  match o with
  | Return a => k a
  | Panic m => Panic m
  end.

Notation "x ←! o ; k" := (bindO o (fun x => k))
  (at level 20, o at level 100, k at level 200, only parsing, right associativity).

(** ** [strconv.ParseInt(s, 10, 64)] *)
Module strconv.

Definition isDigit (c : ascii) : bool :=
  ((48 <=? nat_of_ascii c) && (nat_of_ascii c <=? 57))%nat.

Fixpoint digits (s : string) (acc : Z) : option Z :=
  match s with
  | EmptyString => Some acc
  | String c s' =>
      if isDigit c
      then digits s' (10 * acc + (Z.of_nat (nat_of_ascii c) - 48))
      else None
  end.

(** [ParseUint], without its 64-bit ceiling: every value over the ceiling
    is out of the int64 range below as well. *)
Definition ParseUint (s : string) : option Z :=
  match s with
  | EmptyString => None
  | _ => digits s 0
  end.

Definition ParseInt (s : string) : option Z :=
  match s with
  | EmptyString => None
  | String c rest =>
      let neg := bool_decide (c = "-"%char) in
      let s1 := if bool_decide (c = "+"%char) || neg then rest else s in
      match ParseUint s1 with
      | None => None
      | Some un =>
          let cutoff := 2 ^ 63 in
          if negb neg && (cutoff <=? un) then None
          else if neg && (cutoff <? un) then None
          else Some (if neg then - un else un)
      end
  end.

End strconv.

(** ** [github.com/bitly/go-simplejson]

    The value [encoding/json] decodes into an [interface{}] with
    [UseNumber]: nil, bool, [json.Number] (the literal), string, slice, map. *)
Module simplejson.

Inductive Json : Type :=
  | JNull
  | JBool (b : bool)
  | JNumber (lit : string)
  | JString (s : string)
  | JArray (a : list Json)
  | JObject (m : list (string * Json)).

(** [Array]: the type assertion to [[]interface{}]. *)
Definition Array (j : Json) : option (list Json) :=
  match j with
  | JArray a => Some a
  | _ => None
  end.

(** [GetIndex]: the element when [j] is an array and [len(a) > index],
    a [Json] holding nil otherwise. *)
Definition GetIndex (j : Json) (index : nat) : Json :=
  match Array j with
  | Some a => if decide (index < length a)%nat then nth index a JNull else JNull
  | None => JNull
  end.

(** [String]: the type assertion to [string]. *)
Definition String_ (j : Json) : option string :=
  match j with
  | JString s => Some s
  | _ => None
  end.

(** [MustString()]: the string, or the default [""]. *)
Definition MustString (j : Json) : string :=
  match String_ j with
  | Some s => s
  | None => ""
  end.

(** [Int64]: a decoded number is a [json.Number], read by
    [strconv.ParseInt]; every other value is an invalid value type. *)
Definition Int64 (j : Json) : option Z :=
  match j with
  | JNumber lit => strconv.ParseInt lit
  | _ => None
  end.

(** [MustInt64()]: the integer, or the default [0]. *)
Definition MustInt64 (j : Json) : Z :=
  match Int64 j with
  | Some i => i
  | None => 0
  end.

End simplejson.
Import simplejson.

(** ** [Record] (scanner.go) *)
Record CTRecord : Type := mkRecord {
  From_ : string;
  Name : string;
  Issuer : string;
  NotBeforeTime : Z;
  NotAfterTime : Z;
  Addrs : list string;
  Err : option error
}.

(** ** [parseCTData] *)
Section Parse.

(** [simplejson.NewJson]: the decoded value, or the decoder's error. *)
Variable NewJson : list byte → Json + error.

(** [Record{Name: ..., Issuer: ..., NotBeforeTime: ..., NotAfterTime: ...}]:
    the other fields are the zero values. *)
Definition entryRecord (currentRecord : Json) : CTRecord :=
  {| From_ := "";
     Name := MustString (GetIndex currentRecord 1);
     Issuer := MustString (GetIndex currentRecord 2);
     NotBeforeTime := MustInt64 (GetIndex currentRecord 3);
     NotAfterTime := MustInt64 (GetIndex currentRecord 4);
     Addrs := [];
     Err := None |}.

Definition parseCTData (b : list byte) : list CTRecord * string * option error :=
  match NewJson b with
  | inr err => ([], "", Some (wrap "parsing JSON" err))
  | inl j =>
      let recordsJSON := GetIndex (GetIndex j 0) 1 in
      match Array recordsJSON with
      | None => ([], "", Some "records not an array")
      | Some recordsArray =>
          let lenRecords := length recordsArray in
          let records :=
            map (fun i => entryRecord (GetIndex recordsJSON i)) (seq 0 lenRecords) in
          let token := MustString (GetIndex (GetIndex (GetIndex j 0) 3) 1) in
          (records, token, None)
      end
  end.

End Parse.

(** ** Byte slices

    A Go slice is a window on a backing array: [backing] holds the array from
    the slice's first element up to its capacity, [len] is its length.  A
    slice expression on a slice is bounded by the capacity, not by the length
    (The Go Programming Language Specification, Slice expressions: for
    slices, the upper index bound is the slice capacity [cap(a)] rather than
    the length). *)
Module slice.

Record t : Type := mk { backing : list byte; len : nat }.

Definition cap (s : t) : nat := length (backing s).

(** The elements [s[0] .. s[len(s)-1]]: what [string(s)] and every reader
    of the slice sees. *)
Definition elems (s : t) : list byte := take (len s) (backing s).

Definition wf (s : t) : Prop := (len s ≤ cap s)%nat.

(** [s[:high]]: in range when [0 <= high <= cap(s)]. *)
Definition upto (s : t) (high : nat) : Outcome t :=
  if decide (high ≤ cap s)%nat
  then Return (mk (backing s) high)
  else Panic "slice bounds out of range".

(** [s[low:]], that is [s[low:len(s)]]: in range when
    [0 <= low <= len(s)]. *)
Definition from (s : t) (low : nat) : Outcome t :=
  if decide (low ≤ len s)%nat
  then Return (mk (drop low (backing s)) (len s - low))
  else Panic "slice bounds out of range".

(** [string(s)] *)
Definition to_string (s : t) : string := string_of_list_byte (elems s).

End slice.

(** ** [io.Reader], [ioutil.ReadAll] *)

(** A reader, by what reading it to the end gives: the bytes, and the error
    that ended the stream if it was not end of file. *)
Record Reader : Type := mkReader {
  data : list byte;
  readErr : option error
}.

(** [ioutil.ReadAll] reads into a buffer it allocates with a capacity of 512
    bytes ([make([]byte, 0, 512)] in [io.ReadAll]; [bytes.MinRead] with the
    older [bytes.Buffer]) and grows it when it is full, so the slice it
    returns has a capacity of at least 512 and its spare bytes are the zero
    bytes of the allocation.  Beyond 512 bytes of data the capacity is
    whatever the growth chose; nothing here depends on it. *)
Definition ReadAll (r : Reader) : slice.t * option error :=
  (slice.mk (data r ++ replicate (512 - length (data r)) x00) (length (data r)),
   readErr r).

(** ** [net/http] requests and responses, as far as [scan] uses them *)
Record Request : Type := mkRequest {
  Method : string;
  Scheme : string;
  Host : string;
  Path : string;
  (** [url.Values], in the order [Encode] writes the keys *)
  Query : list (string * string);
  Header : list (string * string)
}.

Record Response : Type := mkResponse {
  StatusCode : Z;
  Status : string;
  (** [resp.Header.Get("Content-Encoding")] *)
  ContentEncoding : string;
  Body : Reader
}.

Definition googleHeaders : list (string * string) :=
  [ ("User-Agent", "Mozilla/5.0 (Windows NT 6.1; Win64; x64) AppleWebKit/537.36 (KHTML, like Gecko) Chrome/62.0.3202.62 Safari/537.36");
    ("Accept", "application/json, text/plain, */*");
    ("Accept-Language", "en-US,en;q=0.5");
    ("Accept-Encoding", "gzip, deflate, br");
    ("Referer", "https://transparencyreport.google.com");
    ("Sec-Fetch-Site", "same-origin");
    ("Sec-Fetch-Mode", "cors");
    ("Sec-Fetch-Dest", "empty");
    ("Connection", "keep-alive");
    ("DNT", "1") ].

(** The anti-XSSI prefix, as bytes. *)
Definition xssiPrefix : list byte := list_byte_of_string ")]}'".

(** The request of one loop iteration: the first request carries the domain,
    a later one only the continuation token.  [http.NewRequest] cannot fail
    here (the method is GET, the URL is built from constants and an escaped
    query), so the request is built outright. *)
Definition pageRequest (domain token : string) : Request :=
  if decide (token = "")
  then {| Method := "GET"; Scheme := "https";
          Host := "transparencyreport.google.com";
          Path := "/transparencyreport/api/v3/httpsreport/ct/certsearch";
          Query := [("domain", domain); ("include_subdomains", "true")];
          Header := googleHeaders |}
  else {| Method := "GET"; Scheme := "https";
          Host := "transparencyreport.google.com";
          Path := "/transparencyreport/api/v3/httpsreport/ct/certsearch/page";
          Query := [("p", token)];
          Header := googleHeaders |}.

(** ** [Scanner] *)

(** What one iteration of the loop of [scan] comes to. *)
Inductive PageResult : Type :=
  | PageError (err : error)
  | PagePanic (msg : string)
  | PageOK (records : list CTRecord) (newToken : string).

(** What a call of [scan] did: the requests it sent and what [s.client.Do]
    gave for each, the continuation token of every response it parsed, the
    records it sent on [s.out], what it returned, and the world it left. *)
Record ScanRun (World : Type) : Type := mkScanRun {
  requests : list Request;
  responses : list (Response + error);
  tokens : list string;
  sent : list CTRecord;
  ret : Outcome (option error);
  after : World
}.
Arguments mkScanRun {World}.
Arguments requests {World}.
Arguments responses {World}.
Arguments tokens {World}.
Arguments sent {World}.
Arguments ret {World}.
Arguments after {World}.

(** [record.From = domain] *)
Definition markFrom (domain : string) (record : CTRecord) : CTRecord :=
  {| From_ := domain; Name := Name record; Issuer := Issuer record;
     NotBeforeTime := NotBeforeTime record; NotAfterTime := NotAfterTime record;
     Addrs := Addrs record; Err := Err record |}.

(** The bytes handed to [parseCTData] for a body of bytes [d]: [d] without
    the prefix when it starts with it, [d] otherwise. *)
Definition pageBytes (d : list byte) : list byte :=
  if decide (take 4 d = xssiPrefix) then drop 4 d else d.

(** The two dedup sets are used in one way: under the lock, a key that is in
    the set is passed over, a key that is not is put in and worked on.
    [claimed keys seen] lists the keys worked on when the keys come (to any
    of the workers) in the order [keys] and the set starts as [seen]. *)
Fixpoint claimed (keys : list string) (seen : gset string) : list string :=
  match keys with
  | [] => []
  | k :: keys' =>
      if decide (k ∈ seen)
      then claimed keys' seen
      else k :: claimed keys' ({[k]} ∪ seen)
  end.

(** A parsed page, or the error of [parseCTData], as [scan] takes it. *)
Definition asPage (parsed : list CTRecord * string * option error) : PageResult :=
  match parsed with
  | (_, _, Some e) => PageError (wrap "parsing CT data" e)
  | (records, newToken, None) => PageOK records newToken
  end.

(** ** What the program calls outside the repository

    The network and the libraries, as an interface: the state [World] of
    what is outside the process, [s.client.Do] and [net.LookupHost] in it,
    [gzip.NewReader], [simplejson.NewJson] and [strings.TrimSpace]. *)
Class Env : Type := {
  World : Type;
  client_Do : World → Request → World * (Response + error);
  gzip_NewReader : Reader → Reader + error;
  NewJson : list byte → Json + error;
  TrimSpace : string → string;
  LookupHost : World → string → World * (list string * option error)
}.

Section Scanner.

Context {env : Env}.
(** [s.maxPages] *)
Variable maxPages : Z.

Definition normalizeDomain (d : string) : string := TrimSpace d.

(** Lines 117-120: [if string(b[:4]) == ")]}'" { b = b[4:] }]. *)
Definition stripPrefix (b : slice.t) : Outcome slice.t :=
  head ←! slice.upto b 4;
  if decide (slice.to_string head = ")]}'")
  then slice.from b 4
  else Return b.

(** Lines 112-125: the body of a response, from [ReadAll] to the parsed
    page. *)
Definition readPage (r : Reader) : PageResult :=
  let '(b, err) := ReadAll r in
  match err with
  | Some e => PageError (wrap "reading response body" e)
  | None =>
      match stripPrefix b with
      | Panic m => PagePanic m
      | Return b' =>
          let '(records, newToken, err) := parseCTData NewJson (slice.elems b') in
          match err with
          | Some e => PageError (wrap "parsing CT data" e)
          | None => PageOK records newToken
          end
      end
  end.

(** Lines 104-110: the reader of the body, through [gzip.NewReader] when
    the response says it is compressed. *)
Definition bodyReader (resp : Response) : Reader + error :=
  if decide (ContentEncoding resp = "gzip")
  then gzip_NewReader (Body resp)
  else inl (Body resp).

(** Lines 97-125: what [s.client.Do] gave, down to the parsed page. *)
Definition handle (res : Response + error) : PageResult :=
  match res with
  | inr err => PageError (wrap "sending request" err)
  | inl resp =>
      if decide (StatusCode resp < 200 ∨ StatusCode resp > 299)
      then PageError ("non-200 response " +:+ pretty (StatusCode resp)
                        +:+ ": " +:+ Status resp)
      else
        match bodyReader resp with
        | inr err => PageError (wrap "creating gzip reader" err)
        | inl r => readPage r
        end
  end.

(** The reader a response has for its body: the body through
    [gzip.NewReader] (which may refuse it) when the response says
    [Content-Encoding: gzip], the body itself otherwise. *)
Inductive Decoded (resp : Response) : Reader + error → Prop :=
  | DecodedGzip :
      ContentEncoding resp = "gzip" →
      Decoded resp (gzip_NewReader (Body resp))
  | DecodedPlain :
      ContentEncoding resp ≠ "gzip" →
      Decoded resp (inl (Body resp)).

(** The failures of a response that the spec lists as fatal, as far as the
    code treats them so: the transport failed; the status is not 2xx; the
    body is said to be gzip and has no gzip header; reading (or
    decompressing) the body failed; the body is not JSON; the decoded value
    has no array at [0][1]. *)
Inductive Failure : Response + error → Prop :=
  | TransportError err :
      Failure (inr err)
  | NonSuccessStatus resp :
      StatusCode resp < 200 ∨ StatusCode resp > 299 →
      Failure (inl resp)
  | GzipHeaderFailure resp err :
      Decoded resp (inr err) →
      Failure (inl resp)
  | ReadFailure resp r err :
      Decoded resp (inl r) → readErr r = Some err →
      Failure (inl resp)
  | MalformedJSON resp r err :
      Decoded resp (inl r) → NewJson (pageBytes (data r)) = inr err →
      Failure (inl resp)
  | NoEntriesArray resp r j :
      Decoded resp (inl r) → NewJson (pageBytes (data r)) = inl j →
      Array (GetIndex (GetIndex j 0) 1) = None →
      Failure (inl resp).

(** A response that is a page, with the entries and the continuation token
    it carries: its status is 2xx, its body is read to the end, and what
    the body holds (after the prefix, if any) decodes to a value with an
    array at [0][1]; the token is the string at [0][3][1], and is empty
    when there is no string there. *)
Inductive Page : Response + error → list Json → string → Prop :=
  | IsPage resp r j entries :
      200 ≤ StatusCode resp ≤ 299 →
      Decoded resp (inl r) → readErr r = None →
      NewJson (pageBytes (data r)) = inl j →
      Array (GetIndex (GetIndex j 0) 1) = Some entries →
      Page (inl resp) entries
           (match String_ (GetIndex (GetIndex (GetIndex j 0) 3) 1) with
            | Some token => token
            | None => EmptyString
            end).

(** The loop [for i := 0; i < s.maxPages; i++], by the number [n] of
    iterations it has left. *)
Fixpoint pages (n : nat) (domain token : string) (w : World) : ScanRun World :=
  match n with
  | O => mkScanRun [] [] [] [] (Return None) w
  | S n' =>
      let req := pageRequest domain token in
      let '(w', res) := client_Do w req in
      match handle res with
      | PageError err => mkScanRun [req] [res] [] [] (Return (Some err)) w'
      | PagePanic m => mkScanRun [req] [res] [] [] (Panic m) w'
      | PageOK records newToken =>
          let out := map (markFrom domain) records in
          if decide (newToken = "")
          then mkScanRun [req] [res] [newToken] out (Return None) w'
          else
            let run := pages n' domain newToken w' in
            mkScanRun (req :: requests run) (res :: responses run)
                      (newToken :: tokens run) (out ++ sent run)
                      (ret run) (after run)
      end
  end.

Definition scan (domain : string) (w : World) : ScanRun World :=
  pages (Z.to_nat maxPages) domain "" w.

(** What a worker's [ScanStream] did: the calls of [scan] in order, each
    with its run; the domains left on [s.in] when it returned; the shared
    set [s.scanned]; what it returned. *)
Record StreamRun : Type := mkStreamRun {
  calls : list (string * ScanRun World);
  unread : list string;
  scanned_after : gset string;
  stream_ret : Outcome (option error);
  stream_after : World
}.

(** [ScanStream], over the domains [s.in] delivers to this worker.  The
    test and the insertion on [s.scanned] are one step: they happen under
    [s.lock]. *)
Fixpoint ScanStream (in_ : list string) (scanned : gset string) (w : World)
  : StreamRun :=
  match in_ with
  | [] => mkStreamRun [] [] scanned (Return None) w
  | domain :: rest =>
      let domain := normalizeDomain domain in
      if decide (domain ∈ scanned)
      then ScanStream rest scanned w
      else
        let scanned := {[domain]} ∪ scanned in
        let run := scan domain w in
        match ret run with
        | Return None =>
            let stream := ScanStream rest scanned (after run) in
            mkStreamRun ((domain, run) :: calls stream) (unread stream)
                        (scanned_after stream) (stream_ret stream)
                        (stream_after stream)
        | r => mkStreamRun [(domain, run)] rest scanned r (after run)
        end
  end.

(** The pool of workers: every domain taken from [s.in] goes through one
    iteration of the loop of [ScanStream], in some worker; [in_] lists the
    domains in the order in which the workers take [s.lock] for them.  The
    scans of different workers overlap in time; they are put one after the
    other here, which the calls made do not depend on. *)
Fixpoint scanPool (in_ : list string) (scanned : gset string) (w : World)
  : list (string * ScanRun World) :=
  match in_ with
  | [] => []
  | domain :: rest =>
      let iteration := ScanStream [domain] scanned w in
      calls iteration
        ++ scanPool rest (scanned_after iteration) (stream_after iteration)
  end.

End Scanner.


(** ** [Resolver] *)

(** [strings.HasPrefix(s, prefix)] *)
Definition HasPrefix (s prefix : string) : bool := String.prefix prefix s.

(** The one-character string holding a double quote. *)
Definition dquote : string := String "034"%char EmptyString.

(** The test of line 30: the name starts with a star or with a double
    quote. *)
Definition wontResolve (name : string) : bool :=
  HasPrefix name "*" || HasPrefix name dquote.

(** What a worker's [Resolve] did: the names it looked up, the records it
    sent on [r.out], the shared set [r.resolved], the world it left.
    [Resolve] has no way to return an error. *)
Record ResolveRun (World : Type) : Type := mkResolveRun {
  lookups : list string;
  forwarded : list CTRecord;
  resolved_after : gset string;
  resolve_ret : option error;
  resolve_after : World
}.
Arguments mkResolveRun {World}.
Arguments lookups {World}.
Arguments forwarded {World}.
Arguments resolved_after {World}.
Arguments resolve_ret {World}.
Arguments resolve_after {World}.

(** [record.Addrs, record.Err = ...] *)
Definition setResolution (record : CTRecord) (addrs : list string)
    (err : option error) : CTRecord :=
  {| From_ := From_ record; Name := Name record; Issuer := Issuer record;
     NotBeforeTime := NotBeforeTime record; NotAfterTime := NotAfterTime record;
     Addrs := addrs; Err := err |}.

Section Resolver.

Context {env : Env}.

(** [Resolve], over the records [r.in] delivers to this worker.  The test
    and the insertion on [r.resolved] are one step: they happen under
    [r.lock]. *)
Fixpoint Resolve (in_ : list CTRecord) (resolved : gset string) (w : World)
  : ResolveRun World :=
  match in_ with
  | [] => mkResolveRun [] [] resolved None w
  | record :: rest =>
      if decide (Name record ∈ resolved)
      then Resolve rest resolved w
      else
        let resolved := {[Name record]} ∪ resolved in
        if wontResolve (Name record)
        then
          let run := Resolve rest resolved w in
          mkResolveRun (lookups run) (record :: forwarded run)
                       (resolved_after run) (resolve_ret run) (resolve_after run)
        else
          let '(w', (addrs, err)) := LookupHost w (Name record) in
          let record' := setResolution record addrs err in
          let run := Resolve rest resolved w' in
          mkResolveRun (Name record :: lookups run) (record' :: forwarded run)
                       (resolved_after run) (resolve_ret run) (resolve_after run)
  end.

End Resolver.

(** ** The sink: the output loop of [main] *)

(** The rows handed to [csv.Writer.Write], in order. *)
Definition Writer := list (list string).

Definition Write (w : Writer) (row : list string) : Writer := (w ++ [row])%list.

(** One iteration of [for record := range resolver.out]. *)
Definition sinkRecord (w : Writer) (record : CTRecord) : Writer :=
  match Err record with
  | Some err => Write w [From_ record; Name record; ""; err]
  | None =>
      let row := [From_ record; Name record; ""; ""] in
      snd (fold_left
             (fun (st : list string * Writer) (addr : string) =>
                let row := <[2%nat := addr]> (fst st) in (row, Write (snd st) row))
             (Addrs record) (row, w))
  end.

Definition sink (out : list CTRecord) : Writer := fold_left sinkRecord out [].

(** The number of rows the claim counts for a record. *)
Definition rowCount (record : CTRecord) : nat :=
  match Err record with
  | Some _ => 1
  | None => length (Addrs record)
  end.

(** The rows the claim lists for a record. *)
Definition rowsOf (record : CTRecord) : list (list string) :=
  match Err record with
  | Some err => [[From_ record; Name record; ""; err]]
  | None => map (fun addr => [From_ record; Name record; addr; ""]) (Addrs record)
  end.

(** ** The rest of the program *)

(** The certificate fields of a record: all but the addresses and the
    error. *)
Definition sameEntry (r r' : CTRecord) : Prop :=
  From_ r = From_ r' ∧ Name r = Name r' ∧ Issuer r = Issuer r'
  ∧ NotBeforeTime r = NotBeforeTime r' ∧ NotAfterTime r = NotAfterTime r'.

(** [http.Header]: from canonical keys to values. *)
Local Abbreviation HeaderMap := (gmap string (list string)).

Section Program.

Context {env : Env}.
Variable maxPages : Z.

(** The test of line 77 of main.go: the trimmed line is empty or its first
    byte is a sharp. *)
Definition ignored (line : string) : bool :=
  match line with
  | EmptyString => true
  | String c _ => bool_decide (c = "#"%char)
  end.

(** Lines 73-82 of main.go: what the reader sends on [scanner.in], for the
    lines [lineScanner.Text()] gives in turn. *)
Fixpoint feed (lines : list string) : list string :=
  match lines with
  | [] => []
  | line :: rest =>
      let line := TrimSpace line in
      if ignored line then feed rest else line :: feed rest
  end.

(** The request of [getGoogleCookie]. *)
Definition cookieRequest : Request :=
  {| Method := "GET"; Scheme := "https";
     Host := "transparencyreport.google.com";
     Path := "/https/certificates";
     Query := [("hl", "en_GB")];
     Header := googleHeaders |}.

(** [getGoogleCookie]; [jar] tells whether [client.Jar] is set.  The
    request cannot fail to be built (the URL is a constant). *)
Definition getGoogleCookie (jar : bool) (w : World) : World * option error :=
  if negb jar then (w, Some "no cookie jar set")
  else
    let '(w', res) := client_Do w cookieRequest in
    (w',
     match res with
     | inr err => Some (wrap "sending request" err)
     | inl resp =>
         if decide (StatusCode resp < 200 ∨ StatusCode resp > 299)
         then Some ("non-200 response " +:+ pretty (StatusCode resp)
                      +:+ ": " +:+ Status resp)
         else None
     end).

(** The world after the requests [reqs] in turn, and what [s.client.Do]
    gave for each. *)
Fixpoint replay (reqs : list Request) (w : World)
  : World * list (Response + error) :=
  match reqs with
  | [] => (w, [])
  | req :: rest =>
      let '(w', res) := client_Do w req in
      let '(w'', ress) := replay rest w' in
      (w'', res :: ress)
  end.

(** The world after the lookups of [names] in turn, and what
    [net.LookupHost] gave for each. *)
Fixpoint lookupAll (names : list string) (w : World)
  : World * list (list string * option error) :=
  match names with
  | [] => (w, [])
  | name :: rest =>
      let '(w', found) := LookupHost w name in
      let '(w'', founds) := lookupAll rest w' in
      (w'', found :: founds)
  end.

(** [scan] for each of [domains] in turn, each in the world the one
    before left. *)
Fixpoint scanEach (domains : list string) (w : World)
  : list (string * ScanRun World) :=
  match domains with
  | [] => []
  | domain :: rest =>
      let run := scan maxPages domain w in
      (domain, run) :: scanEach rest (after run)
  end.

(** The records a worker sent on [s.out], over its calls of [scan]. *)
Definition streamSent (stream : StreamRun) : list CTRecord :=
  concat (map (λ c, sent (snd c)) (calls stream)).

End Program.

(** *** The goroutine that waits for the workers (main.go, lines 85-94) *)

(** [errgroup.Group.Wait], once every worker has returned: the first
    error that is not nil, the workers' results being in the order in which
    they returned. *)
Fixpoint errgroup_Wait (returned : list (option error)) : option error :=
  match returned with
  | [] => None
  | Some err :: _ => Some err
  | None :: rest => errgroup_Wait rest
  end.

(** What the goroutine does to the pipeline: it closes a channel, or it
    ends the process ([log.Fatal], which writes its line and exits with
    status 1). *)
Inductive Supervision : Type :=
  | CloseScannerOut
  | CloseResolverOut
  | Fatal (line : string).

(** [fatalIfError(err, msg)]: the line it ends the process with, if it
    does. *)
Definition fatalIfError (err : option error) (msg : string) : option Supervision :=
  match err with
  | Some e => Some (Fatal ("error " +:+ msg +:+ ": " +:+ e))
  | None => None
  end.

(** Lines 86-93, for the results of the scan workers and of the resolve
    workers. *)
Definition supervise (scanners resolvers : list (option error))
  : list Supervision :=
  match fatalIfError (errgroup_Wait scanners) "in scanner" with
  | Some fatal => [fatal]
  | None =>
      CloseScannerOut ::
      match fatalIfError (errgroup_Wait resolvers) "in resolver" with
      | Some fatal => [fatal]
      | None => [CloseResolverOut]
      end
  end.

Section Headers.

(** [textproto.CanonicalMIMEHeaderKey] *)
Variable canonical : string → string.

(** [req.Header.Set(h, v)] *)
Definition Header_Set (header : HeaderMap) (h v : string) : HeaderMap :=
  <[canonical h := [v]]> header.

(** [setGoogleHeaders]: the loop over the map [googleHeaders], which Go
    goes through in an order of its choice; [order] is that order. *)
Definition setGoogleHeaders (order : list (string * string))
    (header : HeaderMap) : HeaderMap :=
  fold_left (λ header hv, Header_Set header (fst hv) (snd hv)) order header.

End Headers.

(** ** Stand-ins for the libraries and the network

    The theorems below hold for every HTTP client, decoder and resolver.  To
    run the code on concrete input they are instantiated with the stand-ins
    of this module. *)
Module standin.

(** Input is written with a backquote where the JSON text has a double
    quote. *)
Fixpoint requote (s : string) : string :=
  match s with
  | EmptyString => EmptyString
  | String c s' =>
      String (if Ascii.eqb c "`"%char then "034"%char else c) (requote s')
  end.

Definition body (s : string) : list byte := list_byte_of_string (requote s).

(** *** A JSON decoder

    It reads the first JSON value of the input and ignores what follows
    it, as [json.Decoder.Decode] does; numbers keep their literal.  It is
    written for JSON text in ASCII without [\u] escapes, which is all it
    is used on here: it reports a [\u] escape as an error and does not
    check bytes over 0x7f for UTF-8.  The text of its error messages is
    not the library's. *)
Definition isSpace (c : ascii) : bool :=
  Ascii.eqb c " " || Ascii.eqb c "009" || Ascii.eqb c "010" || Ascii.eqb c "013".

Fixpoint skipSpace (s : string) : string :=
  match s with
  | String c s' => if isSpace c then skipSpace s' else s
  | EmptyString => s
  end.

(** [literal lit s]: what follows [lit] at the head of [s]. *)
Fixpoint literal (lit s : string) : option string :=
  match lit, s with
  | EmptyString, _ => Some s
  | String a lit', String b s' => if Ascii.eqb a b then literal lit' s' else None
  | _, EmptyString => None
  end.

(** The longest run of digits at the head of [s], and what follows. *)
Fixpoint digitRun (s : string) : string * string :=
  match s with
  | String c s' =>
      if strconv.isDigit c
      then let '(ds, r) := digitRun s' in (String c ds, r)
      else (EmptyString, s)
  | EmptyString => (EmptyString, EmptyString)
  end.

(** A number literal: an optional minus, then 0 or a run of digits not
    starting with 0, then an optional fraction (a dot and digits), then an
    optional exponent (e or E, an optional sign, digits). *)
Definition number (s : string) : option (string * string) :=
  let '(sign, s) :=
    match s with
    | String "-" s' => ("-", s')
    | _ => (EmptyString, s)
    end in
  let '(int, s) :=
    match s with
    | String "0" s' => ("0", s')
    | _ => digitRun s
    end in
  if bool_decide (int = EmptyString) then None else
  let frac :=
    match s with
    | String "." s' =>
        let '(ds, r) := digitRun s' in
        if bool_decide (ds = EmptyString) then None else Some ("." +:+ ds, r)
    | _ => Some (EmptyString, s)
    end in
  match frac with
  | None => None
  | Some (frac, s) =>
      let exp :=
        match s with
        | String e s' =>
            if Ascii.eqb e "e" || Ascii.eqb e "E" then
              let '(esign, s'') :=
                match s' with
                | String "+" r => ("+", r)
                | String "-" r => ("-", r)
                | _ => (EmptyString, s')
                end in
              let '(ds, r) := digitRun s'' in
              if bool_decide (ds = EmptyString) then None
              else Some (String e esign +:+ ds, r)
            else Some (EmptyString, s)
        | EmptyString => Some (EmptyString, s)
        end in
      match exp with
      | None => None
      | Some (exp, s) => Some (sign +:+ int +:+ frac +:+ exp, s)
      end
  end.

(** The characters of a string literal after its opening quote, up to the
    closing quote. *)
Fixpoint chars (s : string) : option (string * string) :=
  match s with
  | EmptyString => None
  | String c s' =>
      if Ascii.eqb c "034" then Some (EmptyString, s')
      else if (nat_of_ascii c <? 32)%nat then None
      else if Ascii.eqb c "\" then
        match s' with
        | String e s'' =>
            let plain (x : ascii) :=
              match chars s'' with
              | Some (cs, r) => Some (String x cs, r)
              | None => None
              end in
            if Ascii.eqb e "034" then plain "034"%char
            else if Ascii.eqb e "\" then plain "\"%char
            else if Ascii.eqb e "/" then plain "/"%char
            else if Ascii.eqb e "b" then plain "008"%char
            else if Ascii.eqb e "f" then plain "012"%char
            else if Ascii.eqb e "n" then plain "010"%char
            else if Ascii.eqb e "r" then plain "013"%char
            else if Ascii.eqb e "t" then plain "009"%char
            else None
        | EmptyString => None
        end
      else
        match chars s' with
        | Some (cs, r) => Some (String c cs, r)
        | None => None
        end
  end.

Section Composite.

(** The decoder of a value, for the elements and members below. *)
Variable value : string → option (Json * string).

(** The elements of an array after its first bracket, when it is not
    empty; [n] bounds the number of elements. *)
Fixpoint elements (n : nat) (s : string) : option (list Json * string) :=
  match n with
  | O => None
  | S n' =>
      match value s with
      | None => None
      | Some (v, r) =>
          match skipSpace r with
          | String c r' =>
              if Ascii.eqb c "," then
                match elements n' r' with
                | Some (vs, r'') => Some (v :: vs, r'')
                | None => None
                end
              else if Ascii.eqb c "]" then Some ([v], r')
              else None
          | EmptyString => None
          end
      end
  end.

(** The members of an object after its first brace, when it is not
    empty. *)
Fixpoint members (n : nat) (s : string) : option (list (string * Json) * string) :=
  match n with
  | O => None
  | S n' =>
      match skipSpace s with
      | String q s1 =>
          if negb (Ascii.eqb q "034") then None else
          match chars s1 with
          | None => None
          | Some (key, s2) =>
              match skipSpace s2 with
              | String colon s3 =>
                  if negb (Ascii.eqb colon ":") then None else
                  match value s3 with
                  | None => None
                  | Some (v, r) =>
                      match skipSpace r with
                      | String c r' =>
                          if Ascii.eqb c "," then
                            match members n' r' with
                            | Some (kvs, r'') => Some ((key, v) :: kvs, r'')
                            | None => None
                            end
                          else if Ascii.eqb c "}" then Some ([(key, v)], r')
                          else None
                      | EmptyString => None
                      end
                  end
              | EmptyString => None
              end
          end
      | EmptyString => None
      end
  end.

End Composite.

(** A value at the head of [s], after white space; [fuel] bounds the
    nesting. *)
Fixpoint value (fuel : nat) (s : string) : option (Json * string) :=
  match fuel with
  | O => None
  | S fuel' =>
      let s := skipSpace s in
      match s with
      | EmptyString => None
      | String c r =>
          if Ascii.eqb c "[" then
            match skipSpace r with
            | String "]" r' => Some (JArray [], r')
            | _ =>
                match elements (value fuel') (String.length r) r with
                | Some (vs, r') => Some (JArray vs, r')
                | None => None
                end
            end
          else if Ascii.eqb c "{" then
            match skipSpace r with
            | String "}" r' => Some (JObject [], r')
            | _ =>
                match members (value fuel') (String.length r) r with
                | Some (kvs, r') => Some (JObject kvs, r')
                | None => None
                end
            end
          else if Ascii.eqb c "034" then
            match chars r with
            | Some (cs, r') => Some (JString cs, r')
            | None => None
            end
          else if Ascii.eqb c "n" then
            match literal "null" s with
            | Some r' => Some (JNull, r')
            | None => None
            end
          else if Ascii.eqb c "t" then
            match literal "true" s with
            | Some r' => Some (JBool true, r')
            | None => None
            end
          else if Ascii.eqb c "f" then
            match literal "false" s with
            | Some r' => Some (JBool false, r')
            | None => None
            end
          else
            match number s with
            | Some (lit, r') => Some (JNumber lit, r')
            | None => None
            end
      end
  end.

Definition NewJson (b : list byte) : Json + error :=
  let s := string_of_list_byte b in
  match value (S (String.length s)) s with
  | Some (j, _) => inl j
  | None => inr "invalid JSON"
  end.

(** *** [strings.TrimSpace]

    It removes the leading and the trailing white space of Unicode
    ([unicode.IsSpace]): the six of ASCII and U+0085, U+00A0, U+1680,
    U+2000 to U+200A, U+2028, U+2029, U+202F, U+205F and U+3000 in
    UTF-8. *)
Definition utf8 (l : list nat) : string :=
  string_of_list_ascii (map ascii_of_nat l).

Definition spaces : list string :=
  (map utf8 [[9]; [10]; [11]; [12]; [13]; [32]; [194; 133]; [194; 160];
             [225; 154; 128]]
   ++ map (fun k => utf8 [226; 128; k]) (seq 128 11)
   ++ map utf8 [[226; 128; 168]; [226; 128; 169]; [226; 128; 175];
                [226; 129; 159]; [227; 128; 128]])%nat%list.

Fixpoint dropString (n : nat) (s : string) : string :=
  match n, s with
  | S n', String _ s' => dropString n' s'
  | _, _ => s
  end.

(** [trimLeft sp n s]: [s] without the members of [sp] at its head; [n]
    bounds their number. *)
Fixpoint trimLeft (sp : list string) (n : nat) (s : string) : string :=
  match n with
  | O => s
  | S n' =>
      match List.find (fun w => String.prefix w s) sp with
      | Some w => trimLeft sp n' (dropString (String.length w) s)
      | None => s
      end
  end.

Definition TrimSpace (s : string) : string :=
  let s := trimLeft spaces (String.length s) s in
  String.rev (trimLeft (map String.rev spaces) (String.length s) (String.rev s)).

(** *** HTTP servers *)

(** A server that answers the requests with the responses of a list, in
    order, and refuses the connection when the list is used up. *)
Definition served : Type := list (Response + error).

Definition serve (w : served) (req : Request) : served * (Response + error) :=
  match w with
  | [] => ([], inr "connection refused")
  | r :: w' => (w', r)
  end.

(** A server that answers every request with the same response. *)
Definition always (r : Response + error) (w : unit) (req : Request)
  : unit * (Response + error) := (w, r).

(** A response of status 200 with the body [b], not compressed. *)
Definition ok (b : string) : Response :=
  {| StatusCode := 200; Status := "200 OK"; ContentEncoding := EmptyString;
     Body := mkReader (body b) None |}.

(** [gzip.NewReader] on input that has no gzip header, which is all it is
    given here. *)
Definition gzip_NewReader (r : Reader) : Reader + error :=
  inr "gzip: invalid header".

(** *** A resolver, from a table of hosts *)
Definition LookupHost {W : Type} (hosts : list (string * list string)) (w : W)
    (name : string) : W * (list string * option error) :=
  match List.find (fun h => bool_decide (fst h = name)) hosts with
  | Some h => (w, (snd h, None))
  | None => (w, ([], Some "no such host"))
  end.

(** *** [textproto.CanonicalMIMEHeaderKey], for a key made of letters,
    digits and dashes: the first letter and every letter after a dash in
    upper case, the others in lower case. *)
Fixpoint canonicalFrom (upper : bool) (s : string) : string :=
  match s with
  | EmptyString => EmptyString
  | String c s' =>
      let n := nat_of_ascii c in
      let c' :=
        if upper && (97 <=? n)%nat && (n <=? 122)%nat then ascii_of_nat (n - 32)
        else if negb upper && (65 <=? n)%nat && (n <=? 90)%nat then ascii_of_nat (n + 32)
        else c in
      String c' (canonicalFrom (Ascii.eqb c' "-") s')
  end.

Definition canonical (s : string) : string := canonicalFrom true s.

(** The stand-ins together, around a server and a table of hosts. *)
Definition env {W : Type} (Do : W → Request → W * (Response + error))
    (hosts : list (string * list string)) : Env :=
  Build_Env W Do gzip_NewReader NewJson TrimSpace (LookupHost hosts).

End standin.

(** ** Sample input *)
Module sample.

(** A page with one entry, for a wildcard name, and no further page. *)
Definition wildcardPage : string :=
  "[[null,[[null,`*.example.com`,`CA`,1605043123456,1612819123456]],null,[null,``]]]".

(** The record the scan of [example.com] makes of it. *)
Definition star : CTRecord :=
  mkRecord "example.com" "*.example.com" "CA" 1605043123456 1612819123456 [] None.

(** A page with no entry and the token [tok]. *)
Definition morePage : string := "[[null,[],null,[null,`tok`]]]".

(** A page whose one entry has null where the name is expected. *)
Definition noSubject : string := "[[null,[[null,null,`CA`,1,2]],null,[null,``]]]".


(** A server that answers from a list, and no host. *)
Definition listed : Env := standin.env standin.serve [].

(** A server that always answers [morePage], and no host. *)
Definition endless : Env :=
  standin.env (standin.always (inl (standin.ok morePage))) [].

(** Four lines of input: a domain, a comment, a blank line, a domain. *)
Definition lines : list string :=
  [" example.com "; "# a comment"; "   "; "example.org"].

(** Two records with one name, found under two domains, and a third. *)
Definition found : list CTRecord :=
  [mkRecord "example.com" "shared.example.com" "CA" 1 2 [] None;
   mkRecord "example.org" "shared.example.com" "CA" 1 2 [] None;
   mkRecord "example.org" "www.example.org" "CA" 1 2 [] None].

End sample.

(** * Proofs *)

(** ** The sink *)

Lemma addr_rows (a b x : string) (addrs : list string) (w : Writer) :
  snd (fold_left
         (fun (st : list string * Writer) (addr : string) =>
            let row := <[2%nat := addr]> (fst st) in (row, Write (snd st) row))
         addrs ([a; b; x; ""], w))
  = (w ++ map (fun addr => [a; b; addr; ""]) addrs)%list.
Proof.
  revert x w. induction addrs as [|addr addrs IH]; intros x w; simpl.
  - by rewrite app_nil_r.
  - rewrite IH. unfold Write. by rewrite <- app_assoc.
Qed.

Lemma sinkRecord_rows (w : Writer) (record : CTRecord) :
  sinkRecord w record = (w ++ rowsOf record)%list.
Proof.
  unfold sinkRecord, rowsOf. destruct (Err record) as [err|]; [done|].
  apply addr_rows.
Qed.

Lemma sink_from (w : Writer) (out : list CTRecord) :
  fold_left sinkRecord out w = (w ++ concat (map rowsOf out))%list.
Proof.
  revert w. induction out as [|record out IH]; intros w; simpl.
  - by rewrite app_nil_r.
  - rewrite IH, sinkRecord_rows. by rewrite <- app_assoc.
Qed.

Lemma rowsOf_length (record : CTRecord) :
  length (rowsOf record) = rowCount record.
Proof.
  unfold rowsOf, rowCount. destruct (Err record); [done|].
  by rewrite length_map.
Qed.

Lemma concat_rows_length (out : list CTRecord) :
  length (concat (map rowsOf out)) = sum_list (map rowCount out).
Proof.
  induction out as [|record out IH]; simpl; [done|].
  by rewrite length_app, rowsOf_length, IH.
Qed.

(** C3: the rows written for the records [out] are, record by record, one
    row (From, Name, empty, message) when [Err] is set and one row (From,
    Name, address, empty) per address otherwise; their number is the sum of
    [rowCount]; a record with no address and no error adds no row. *)
Theorem sink_row_count (out : list CTRecord) :
  sink out = concat (map rowsOf out)
  ∧ length (sink out) = sum_list (map rowCount out)
  ∧ (∀ (w : Writer) (from name issuer : string) (notBefore notAfter : Z),
       sinkRecord w (mkRecord from name issuer notBefore notAfter [] None) = w).
Proof.
  assert (Hsink : sink out = concat (map rowsOf out)) by apply (sink_from []).
  split; [exact Hsink|]. split.
  - rewrite Hsink. apply concat_rows_length.
  - intros. rewrite sinkRecord_rows. simpl. apply app_nil_r.
Qed.

(** ** [parseCTData] *)

Lemma Array_Some (j : Json) (a : list Json) : Array j = Some a → j = JArray a.
Proof. destruct j; simpl; congruence. Qed.

Lemma GetIndex_lookup (a : list Json) (i : nat) (x : Json) :
  a !! i = Some x → GetIndex (JArray a) i = x.
Proof.
  intros Hi. unfold GetIndex; simpl.
  pose proof (lookup_lt_Some _ _ _ Hi) as Hlt.
  destruct (decide (i < length a)%nat) as [_|Hn]; [|lia].
  by apply nth_lookup_Some with (d := JNull) in Hi.
Qed.

Lemma entries_by_index (a : list Json) :
  map (fun i => entryRecord (GetIndex (JArray a) i)) (seq 0 (length a))
  = map entryRecord a.
Proof.
  apply list_eq; intros i.
  rewrite !list_lookup_fmap.
  destruct (a !! i) as [x|] eqn:Hi; simpl.
  - rewrite lookup_seq_lt by (eapply lookup_lt_Some; eauto); simpl.
    by rewrite (GetIndex_lookup _ _ _ Hi).
  - rewrite lookup_seq_ge; [done|]. by apply lookup_ge_None.
Qed.

Section ParseProofs.

Variable NewJson : list byte → Json + error.

(** What a page that parses holds. *)
Lemma parseCTData_ok (b : list byte) (records : list CTRecord) (token : string) :
  parseCTData NewJson b = (records, token, None) →
  ∃ j entries,
    NewJson b = inl j
    ∧ Array (GetIndex (GetIndex j 0) 1) = Some entries
    ∧ records = map entryRecord entries
    ∧ token = MustString (GetIndex (GetIndex (GetIndex j 0) 3) 1).
Proof.
  unfold parseCTData. destruct (NewJson b) as [j|err]; [|discriminate].
  destruct (Array (GetIndex (GetIndex j 0) 1)) as [entries|] eqn:Harr;
    [|discriminate].
  intros [= <- <-]. exists j, entries. repeat split; [done|].
  rewrite (Array_Some _ _ Harr). apply entries_by_index.
Qed.

(** The errors of [parseCTData]: the decoder's, and the missing array. *)
Lemma parseCTData_error (b : list byte) (records : list CTRecord)
    (token : string) (e : error) :
  parseCTData NewJson b = (records, token, Some e) →
  (∃ err, NewJson b = inr err)
  ∨ (∃ j, NewJson b = inl j ∧ Array (GetIndex (GetIndex j 0) 1) = None).
Proof.
  unfold parseCTData. destruct (NewJson b) as [j|err]; [|eauto].
  destruct (Array (GetIndex (GetIndex j 0) 1)) eqn:Harr; [discriminate|].
  eauto.
Qed.

(** Every record of a parsed page has no address and no error yet. *)
Lemma parseCTData_unresolved (b : list byte) (records : list CTRecord)
    (token : string) (err : option error) (record : CTRecord) :
  parseCTData NewJson b = (records, token, err) →
  record ∈ records → Addrs record = [] ∧ Err record = None.
Proof.
  unfold parseCTData. destruct (NewJson b) as [j|e].
  - destruct (Array (GetIndex (GetIndex j 0) 1)) as [entries|].
    + intros [= <- _ _] Hin. apply list_elem_of_fmap in Hin as (i & -> & _).
      done.
    + intros [= <- _ _] Hin. by apply elem_of_nil in Hin.
  - intros [= <- _ _] Hin. by apply elem_of_nil in Hin.
Qed.

(** C9, amended: the [Name] of the record at position [i] of a parsed page
    is the string at index 1 of the entry at position [i], and is empty
    when the entry has no string there or has the empty string. *)
Theorem parseCTData_Name (b : list byte) (records : list CTRecord)
    (token : string) :
  parseCTData NewJson b = (records, token, None) →
  ∃ j entries,
    NewJson b = inl j
    ∧ Array (GetIndex (GetIndex j 0) 1) = Some entries
    ∧ length records = length entries
    ∧ ∀ (i : nat) (record : CTRecord),
        records !! i = Some record →
        ∃ entry,
          entries !! i = Some entry
          ∧ Name record = MustString (GetIndex entry 1)
          ∧ (Name record ≠ ""
             ↔ ∃ s, String_ (GetIndex entry 1) = Some s ∧ s ≠ "").
Proof.
  intros Hok. destruct (parseCTData_ok _ _ _ Hok) as (j & entries & Hj & Harr & -> & _).
  exists j, entries. split; [done|]. split; [done|]. split.
  { by rewrite length_map. }
  intros i record Hi. rewrite list_lookup_fmap in Hi.
  destruct (entries !! i) as [entry|]; [|discriminate].
  injection Hi as <-. exists entry. split; [done|]. split; [done|].
  simpl. unfold MustString. destruct (String_ (GetIndex entry 1)) as [s|].
  - split; [intros Hs; by exists s | by intros (s' & [= <-] & Hs')].
  - split; [done | by intros (s' & ? & _)].
Qed.

End ParseProofs.

(** ** The prefix-stripping step *)

Lemma xssiPrefix_bytes : xssiPrefix = [x29; x5d; x7d; x27].
Proof. reflexivity. Qed.

Lemma to_string_prefix (s : slice.t) :
  slice.to_string s = ")]}'" ↔ slice.elems s = xssiPrefix.
Proof.
  unfold slice.to_string. split; intros H.
  - rewrite <- (list_byte_of_string_of_list_byte (slice.elems s)). by rewrite H.
  - by rewrite H.
Qed.

Lemma elems_length (s : slice.t) :
  slice.wf s → length (slice.elems s) = slice.len s.
Proof.
  unfold slice.wf, slice.cap, slice.elems. intros H.
  rewrite length_take. lia.
Qed.

Lemma ReadAll_wf (r : Reader) : slice.wf (fst (ReadAll r)).
Proof.
  unfold slice.wf, slice.cap; simpl. rewrite length_app. lia.
Qed.

Lemma ReadAll_elems (r : Reader) : slice.elems (fst (ReadAll r)) = data r.
Proof. unfold slice.elems; simpl. by rewrite take_app_length. Qed.

Lemma ReadAll_cap (r : Reader) : (512 ≤ slice.cap (fst (ReadAll r)))%nat.
Proof.
  unfold slice.cap; simpl. rewrite length_app, length_replicate. lia.
Qed.

(** The first four bytes of a slice that holds at least four. *)
Lemma upto_4_elems (s : slice.t) :
  (4 ≤ slice.len s)%nat →
  take 4 (slice.backing s) = take 4 (slice.elems s).
Proof.
  intros H. unfold slice.elems. rewrite take_take. f_equal. lia.
Qed.

(** A slice that holds the prefix and then [b] is cut down to [b]. *)
Lemma stripPrefix_prefixed (s : slice.t) (b : list byte) :
  slice.wf s → slice.elems s = (xssiPrefix ++ b)%list →
  ∃ s', stripPrefix s = Return s' ∧ slice.elems s' = b.
Proof.
  intros Hwf Hel.
  assert (Hlen : (4 ≤ slice.len s)%nat).
  { rewrite <- (elems_length s Hwf), Hel, length_app. simpl. lia. }
  unfold stripPrefix, slice.upto.
  destruct (decide (4 ≤ slice.cap s)%nat) as [_|Hn];
    [|unfold slice.wf in Hwf; lia].
  simpl. destruct (decide _) as [_|Hne].
  - unfold slice.from. destruct (decide (4 ≤ slice.len s)%nat) as [_|Hn]; [|lia].
    eexists; split; [done|]. unfold slice.elems; simpl.
    rewrite <- skipn_firstn_comm. fold (slice.elems s). by rewrite Hel.
  - exfalso. apply Hne, to_string_prefix. unfold slice.elems; simpl.
    rewrite upto_4_elems, Hel by done. done.
Qed.

(** A slice of at least four bytes that does not start with the prefix is
    left as it is. *)
Lemma stripPrefix_other (s : slice.t) :
  slice.wf s → (4 ≤ slice.len s)%nat →
  take 4 (slice.elems s) ≠ xssiPrefix →
  stripPrefix s = Return s.
Proof.
  intros Hwf Hlen Hne. unfold stripPrefix, slice.upto.
  destruct (decide (4 ≤ slice.cap s)%nat) as [_|Hn];
    [|unfold slice.wf in Hwf; lia].
  simpl. destruct (decide _) as [He|_]; [|done].
  exfalso. apply Hne. apply to_string_prefix in He.
  unfold slice.elems in He; simpl in He. by rewrite <- upto_4_elems.
Qed.

(** When the step panics: the capacity is under four, or the slice holds
    fewer than four bytes and its array spells the prefix. *)
Lemma stripPrefix_panics (s : slice.t) :
  (∃ m, stripPrefix s = Panic m)
  ↔ (slice.cap s < 4)%nat
    ∨ ((slice.len s < 4)%nat ∧ take 4 (slice.backing s) = xssiPrefix).
Proof.
  unfold stripPrefix, slice.upto.
  destruct (decide (4 ≤ slice.cap s)%nat) as [Hcap|Hcap]; simpl.
  - destruct (decide _) as [He|Hne].
    + apply to_string_prefix in He. unfold slice.elems in He; simpl in He.
      unfold slice.from.
      destruct (decide (4 ≤ slice.len s)%nat) as [Hlen|Hlen].
      * split; [by intros [m ?] | intros [?|[? _]]; lia].
      * split; [intros _; right; split; [lia|done] | eauto].
    + split; [by intros [m ?]|]. intros [?|[_ He]]; [lia|].
      exfalso. apply Hne, to_string_prefix. by unfold slice.elems.
  - split; [intros _; left; lia | eauto].
Qed.

(** The spare bytes of the buffer of [ReadAll] are zero: with fewer than
    four bytes of data its first four bytes are not the prefix. *)
Lemma ReadAll_short (r : Reader) :
  (length (data r) < 4)%nat →
  take 4 (slice.backing (fst (ReadAll r))) ≠ xssiPrefix.
Proof.
  intros Hlen Heq; simpl in Heq.
  assert (Hz : take 4 (data r ++ replicate (512 - length (data r)) x00)
               !! length (data r) = Some x00).
  { rewrite lookup_take_lt by done.
    rewrite lookup_app_r by done. rewrite Nat.sub_diag.
    apply lookup_replicate_2. lia. }
  rewrite Heq in Hz. rewrite xssiPrefix_bytes in Hz.
  destruct (length (data r)) as [|[|[|[|n]]]]; simpl in Hz;
    first [discriminate | lia].
Qed.

(** On the buffer of [ReadAll] the step never panics, and it hands
    [pageBytes] of the body to the parser. *)
Lemma stripPrefix_ReadAll (r : Reader) :
  ∃ s', stripPrefix (fst (ReadAll r)) = Return s'
        ∧ slice.elems s' = pageBytes (data r).
Proof.
  pose proof (ReadAll_wf r) as Hwf. pose proof (ReadAll_elems r) as Hel.
  unfold pageBytes. destruct (decide (take 4 (data r) = xssiPrefix)) as [He|Hne].
  - apply stripPrefix_prefixed; [done|].
    rewrite Hel. by rewrite <- He, take_drop.
  - destruct (decide (4 ≤ length (data r))%nat) as [Hlen|Hlen].
    + exists (fst (ReadAll r)). split; [|done].
      apply stripPrefix_other; [done|done|by rewrite Hel].
    + exists (fst (ReadAll r)). split; [|done].
      destruct (stripPrefix (fst (ReadAll r))) as [s'|m] eqn:Hs.
      * revert Hs. unfold stripPrefix, slice.upto.
        destruct (decide _); [|done]. simpl.
        destruct (decide _) as [He|_]; [|congruence].
        apply to_string_prefix in He. exfalso.
        apply (ReadAll_short r); [lia|]. exact He.
      * exfalso. assert (Hp : ∃ m, stripPrefix (fst (ReadAll r)) = Panic m) by eauto.
        apply stripPrefix_panics in Hp as [Hcap|[_ He]].
        -- pose proof (ReadAll_cap r). lia.
        -- apply (ReadAll_short r); [lia|done].
Qed.

Section BodyProofs.

Context {env : Env}.

(** The body of a response, from the reader to the page, without the
    slices. *)
Lemma readPage_spec (r : Reader) :
  readPage r
  = match readErr r with
    | Some e => PageError (wrap "reading response body" e)
    | None => asPage (parseCTData NewJson (pageBytes (data r)))
    end.
Proof.
  unfold readPage. destruct (ReadAll r) as [b err] eqn:HR.
  assert (Hb : b = fst (ReadAll r)) by (by rewrite HR).
  assert (He : err = readErr r) by (unfold ReadAll in HR; congruence).
  subst err. destruct (readErr r); [done|].
  destruct (stripPrefix_ReadAll r) as (s' & Hs & Hel).
  rewrite Hb, Hs, Hel. unfold asPage.
  by destruct (parseCTData NewJson (pageBytes (data r))) as [[? ?] [?|]].
Qed.

Lemma readPage_no_panic (r : Reader) (m : string) :
  readPage r ≠ PagePanic m.
Proof.
  rewrite readPage_spec. destruct (readErr r); [done|].
  unfold asPage.
  by destruct (parseCTData NewJson (pageBytes (data r))) as [[? ?] [?|]].
Qed.

Lemma pageBytes_prefixed (b : list byte) : pageBytes (xssiPrefix ++ b) = b.
Proof. reflexivity. Qed.

(** C7: a body that is the prefix followed by [b] is cut down to [b] by the
    stripping step, so it parses to the records, the token and the error of
    [b]: on any slice that holds it, on the buffer [ReadAll] returns for it,
    and through the whole of the body handling, which also treats it as it
    treats [b] when [b] does not start with the prefix itself.  This holds
    whatever the length of [b], in particular when it is at least 4. *)
Theorem xssi_prefix_stripped (b : list byte) :
  (∀ s : slice.t,
     slice.wf s → slice.elems s = (xssiPrefix ++ b)%list →
     ∃ s', stripPrefix s = Return s'
           ∧ parseCTData NewJson (slice.elems s') = parseCTData NewJson b)
  ∧ (∃ s', stripPrefix (fst (ReadAll (mkReader (xssiPrefix ++ b) None))) = Return s'
           ∧ parseCTData NewJson (slice.elems s') = parseCTData NewJson b)
  ∧ readPage (mkReader (xssiPrefix ++ b) None)
    = asPage (parseCTData NewJson b)
  ∧ (take 4 b ≠ xssiPrefix →
     readPage (mkReader (xssiPrefix ++ b) None)
     = readPage (mkReader b None)).
Proof.
  split; [|split; [|split]].
  - intros s Hwf Hel. destruct (stripPrefix_prefixed s b Hwf Hel) as (s' & Hs & Hb).
    exists s'. by rewrite Hb.
  - destruct (stripPrefix_prefixed (fst (ReadAll (mkReader (xssiPrefix ++ b) None))) b)
      as (s' & Hs & Hb).
    + apply ReadAll_wf.
    + by rewrite ReadAll_elems.
    + exists s'. by rewrite Hb.
  - rewrite readPage_spec. cbn [data readErr]. by rewrite pageBytes_prefixed.
  - intros Hne. rewrite !readPage_spec. cbn [data readErr].
    rewrite pageBytes_prefixed. unfold pageBytes.
    by destruct (decide (take 4 b = xssiPrefix)).
Qed.

End BodyProofs.

(** C8, amended: the step slices [b[:4]] with no guard on the length, and
    a slice expression is bounded by the capacity: it panics exactly on a
    buffer whose capacity is under 4, or that holds fewer than 4 bytes and
    whose array spells the prefix.  The buffer of [ReadAll] is neither, so
    for every body the step returns, handing the parser [pageBytes] of the
    body (a body under 4 bytes as it is), and the body handling never
    panics. *)
Theorem stripPrefix_no_length_guard :
  (∀ s : slice.t,
     (∃ m, stripPrefix s = Panic m)
     ↔ (slice.cap s < 4)%nat
       ∨ ((slice.len s < 4)%nat ∧ take 4 (slice.backing s) = xssiPrefix))
  ∧ (∀ r : Reader,
       ∃ s', stripPrefix (fst (ReadAll r)) = Return s'
             ∧ slice.elems s' = pageBytes (data r))
  ∧ (∀ r : Reader,
       (length (data r) < 4)%nat → pageBytes (data r) = data r)
  ∧ (∀ (env : Env) (r : Reader) (m : string), readPage r ≠ PagePanic m).
Proof.
  split; [exact stripPrefix_panics|]. split; [exact stripPrefix_ReadAll|].
  split; [|intros env; exact readPage_no_panic].
  intros r Hlen. unfold pageBytes.
  destruct (decide (take 4 (data r) = xssiPrefix)) as [He|]; [|done].
  exfalso. apply (f_equal length) in He. rewrite length_take in He.
  change (length xssiPrefix) with 4%nat in He. lia.
Qed.

(** C8 as stated fails: the empty body is left as it is by the step, and no
    body under 4 bytes makes the body handling panic. *)
Lemma short_body_does_not_crash :
  stripPrefix (fst (ReadAll (mkReader [] None)))
  = Return (fst (ReadAll (mkReader [] None)))
  ∧ ¬ (∃ (env : Env) (r : Reader) (m : string),
         (length (data r) < 4)%nat ∧ readPage r = PagePanic m).
Proof.
  split; [by vm_compute|].
  intros (env & r & m & _ & H). by apply readPage_no_panic in H.
Qed.

(** ** [scan] *)

Section ScanProofs.

Context {env : Env}.
Variable maxPages : Z.

(** One iteration, case by case. *)
Lemma pages_more (n : nat) (domain token : string) (w w' : World)
    (res : Response + error) (records : list CTRecord) (newToken : string) :
  client_Do w (pageRequest domain token) = (w', res) →
  handle res = PageOK records newToken → newToken ≠ "" →
  pages (S n) domain token w
  = let run := pages n domain newToken w' in
    mkScanRun (pageRequest domain token :: requests run) (res :: responses run)
              (newToken :: tokens run)
              (map (markFrom domain) records ++ sent run)
              (ret run) (after run).
Proof.
  intros Hdo Hres Hne. simpl. rewrite Hdo, Hres.
  by destruct (decide (newToken = "")).
Qed.

(** [handle] never panics, and fails exactly on a [Failure]. *)
Lemma handle_no_panic (res : Response + error) (m : string) :
  handle res ≠ PagePanic m.
Proof.
  unfold handle. destruct res as [resp|err]; [|done].
  destruct (decide _); [done|].
  destruct (bodyReader resp) as [r|err]; [|done].
  apply readPage_no_panic.
Qed.

Lemma Decoded_bodyReader (resp : Response) (x : Reader + error) :
  Decoded resp x ↔ x = bodyReader resp.
Proof.
  unfold bodyReader. split.
  - intros [Hgz|Hgz]; by destruct (decide (ContentEncoding resp = "gzip")).
  - intros ->. destruct (decide (ContentEncoding resp = "gzip"));
      by constructor.
Qed.

Lemma handle_error_iff (res : Response + error) :
  (∃ err, handle res = PageError err) ↔ Failure res.
Proof.
  split.
  - intros [e He]. unfold handle in He.
    destruct res as [resp|err]; [|constructor].
    destruct (decide _) as [Hst|Hst] in He; [by apply NonSuccessStatus|].
    destruct (bodyReader resp) as [r|err] eqn:Hr;
      [|by eapply GzipHeaderFailure, Decoded_bodyReader].
    symmetry in Hr. apply Decoded_bodyReader in Hr.
    rewrite readPage_spec in He.
    destruct (readErr r) as [re|] eqn:Hre; [by eapply ReadFailure|].
    destruct (parseCTData NewJson (pageBytes (data r))) as [[recs tok] [pe|]] eqn:Hp;
      [|done].
    apply parseCTData_error in Hp as [[err Herr]|(j & Hj & Harr)].
    + by eapply MalformedJSON.
    + by eapply NoEntriesArray.
  - intros HF. unfold handle.
    destruct HF as [err|resp Hst|resp err Hr|resp r err Hr Hre|resp r err Hr Hj
                    |resp r j Hr Hj Harr]; [by eexists|..];
      (destruct (decide _) as [_|Hst']; [by eexists|]); [done|..];
      apply Decoded_bodyReader in Hr; rewrite <- Hr;
      [by eexists|rewrite readPage_spec..].
    + rewrite Hre. by eexists.
    + destruct (readErr r); [by eexists|]. unfold parseCTData. rewrite Hj.
      by eexists.
    + destruct (readErr r); [by eexists|]. unfold parseCTData.
      rewrite Hj, Harr. by eexists.
Qed.

(** A response that is taken as a page: its records are made of the
    entries of the array at [0][1], field by field with [MustString] and
    [MustInt64], and its token is [MustString] of what is at [0][3][1]. *)
Lemma handle_ok (res : Response + error) (records : list CTRecord)
    (newToken : string) :
  handle res = PageOK records newToken →
  ∃ b j entries,
    parseCTData NewJson b = (records, newToken, None)
    ∧ NewJson b = inl j
    ∧ Array (GetIndex (GetIndex j 0) 1) = Some entries
    ∧ records = map entryRecord entries
    ∧ newToken = MustString (GetIndex (GetIndex (GetIndex j 0) 3) 1).
Proof.
  unfold handle. destruct res as [resp|err]; [|done].
  destruct (decide _); [done|].
  destruct (bodyReader resp) as [r|err]; [|done].
  rewrite readPage_spec. destruct (readErr r); [done|]. unfold asPage.
  destruct (parseCTData NewJson (pageBytes (data r))) as [[recs tok] [e|]] eqn:Hp;
    [done|].
  intros [= <- <-].
  destruct (parseCTData_ok _ _ _ _ Hp) as (j & entries & Hj & Harr & Hrecs & Htok).
  by exists (pageBytes (data r)), j, entries.
Qed.

(** A response is taken as a page exactly when it is one, and then with
    the token it carries and one record per entry. *)
Lemma handle_page (res : Response + error) (records : list CTRecord)
    (newToken : string) :
  handle res = PageOK records newToken
  ↔ ∃ entries, Page res entries newToken ∧ records = map entryRecord entries.
Proof.
  split.
  - unfold handle. destruct res as [resp|err]; [|done].
    destruct (decide _) as [|Hst]; [done|].
    destruct (bodyReader resp) as [r|err] eqn:Hr; [|done].
    symmetry in Hr. apply Decoded_bodyReader in Hr.
    rewrite readPage_spec. destruct (readErr r) eqn:Hre; [done|]. unfold asPage.
    destruct (parseCTData NewJson (pageBytes (data r))) as [[recs tok] [e|]] eqn:Hp;
      [done|].
    intros [= <- <-].
    destruct (parseCTData_ok _ _ _ _ Hp) as (j & entries & Hj & Harr & Hrecs & ->).
    exists entries. split; [|done].
    apply (IsPage resp r j entries); [lia|done..].
  - intros (entries & HP & ->).
    destruct HP as [resp r j entries Hst Hr Hre Hj Harr].
    unfold handle. destruct (decide _) as [|_]; [lia|].
    apply Decoded_bodyReader in Hr. rewrite <- Hr, readPage_spec, Hre.
    unfold parseCTData. rewrite Hj, Harr. simpl.
    by rewrite (Array_Some _ _ Harr), entries_by_index.
Qed.


Lemma Page_token (res : Response + error) (entries entries' : list Json)
    (token token' : string) :
  Page res entries token → Page res entries' token' →
  entries = entries' ∧ token = token'.
Proof.
  intros H1 H2.
  assert (handle res = PageOK (map entryRecord entries) token) as Hok1.
  { apply handle_page. eauto. }
  destruct H1 as [resp r j entries Hst Hr Hre Hj Harr].
  inversion H2 as [resp' r' j' entries'' Hst' Hr' Hre' Hj' Harr' Heq1 Heq2 Heq3].
  apply Decoded_bodyReader in Hr, Hr'.
  assert (r' = r) as -> by congruence.
  assert (j' = j) as -> by congruence.
  split; congruence.
Qed.

(** The run of the loop: at most [n] requests, one response each. *)
Lemma pages_requests (n : nat) (domain token : string) (w : World) :
  (length (requests (pages n domain token w)) ≤ n)%nat
  ∧ length (responses (pages n domain token w))
    = length (requests (pages n domain token w)).
Proof.
  revert token w. induction n as [|n IH]; intros token w; simpl; [done|].
  destruct (client_Do w (pageRequest domain token)) as [w' res].
  destruct (handle res) as [err|m|records newToken]; simpl; [lia..|].
  destruct (decide (newToken = "")); simpl; [lia|].
  destruct (IH newToken w'). lia.
Qed.

(** A response with an empty token ends the run: its request is the last
    one, and the run returns nil. *)
Lemma pages_empty_token (n : nat) (domain token : string) (w : World) (i : nat) :
  tokens (pages n domain token w) !! i = Some "" →
  length (requests (pages n domain token w)) = S i
  ∧ ret (pages n domain token w) = Return None.
Proof.
  revert token w i. induction n as [|n IH]; intros token w i; simpl; [done|].
  destruct (client_Do w (pageRequest domain token)) as [w' res].
  destruct (handle res) as [err|m|records newToken]; simpl; [done..|].
  destruct (decide (newToken = "")) as [->|Hne]; simpl.
  - destruct i as [|i]; [done|]. by destruct i.
  - destruct i as [|i]; simpl; [congruence|].
    intros Hi. destruct (IH _ _ _ Hi) as [-> ->]. done.
Qed.


(** The log of a run is the exchange itself: the responses are those the
    world gave to the requests in turn. *)
Lemma pages_replay (n : nat) (domain token : string) (w : World) :
  replay (requests (pages n domain token w)) w
  = (after (pages n domain token w), responses (pages n domain token w)).
Proof.
  revert w token. induction n as [|n IH]; intros w token; simpl; [done|].
  destruct (client_Do w (pageRequest domain token)) as [w' res] eqn:Hdo.
  destruct (handle res) as [err|m|records newToken]; simpl;
    try (by rewrite Hdo).
  destruct (decide (newToken = "")); simpl; rewrite Hdo; [done|].
  by rewrite IH.
Qed.

(** The tokens logged are those of the pages among the responses. *)
Lemma pages_tokens (n : nat) (domain token : string) (w : World) (i : nat)
    (t : string) :
  tokens (pages n domain token w) !! i = Some t
  ↔ ∃ res entries, responses (pages n domain token w) !! i = Some res
                   ∧ Page res entries t.
Proof.
  revert token w i. induction n as [|n IH]; intros token w i; simpl.
  { split; [done | by intros (? & ? & ? & _)]. }
  destruct (client_Do w (pageRequest domain token)) as [w' res].
  destruct (handle res) as [err|m|records newToken] eqn:Hres; simpl.
  - split; [done|]. intros (res' & entries & Hi & HP).
    destruct i; [|done]. injection Hi as <-.
    assert (handle res = PageOK (map entryRecord entries) t) as Hok
      by (apply handle_page; eauto).
    congruence.
  - by apply handle_no_panic in Hres.
  - apply handle_page in Hres as (entries & HP & _).
    assert (Hhere : ∀ t', Some newToken = Some t'
                          ↔ ∃ res' entries', Some res = Some res' ∧ Page res' entries' t').
    { intros t'. split.
      - intros [= <-]. eauto.
      - intros (res' & entries' & [= <-] & HP').
        by destruct (Page_token _ _ _ _ _ HP HP') as [_ ->]. }
    destruct (decide (newToken = "")); simpl.
    + destruct i as [|i]; [apply Hhere|].
      split; [by destruct i | by intros (? & ? & ? & _); destruct i].
    + destruct i as [|i]; [apply Hhere | apply IH].
Qed.

(** A page with an empty token ends the run, without error. *)
Lemma pages_stop_empty (n : nat) (domain token : string) (w : World) (i : nat)
    (res : Response + error) (entries : list Json) :
  responses (pages n domain token w) !! i = Some res →
  Page res entries "" →
  length (requests (pages n domain token w)) = S i
  ∧ ret (pages n domain token w) = Return None.
Proof.
  intros Hi HP. apply pages_empty_token. apply pages_tokens. eauto.
Qed.


(** Every request but the first carries the token of the page that
    answered the request before it. *)
Lemma pages_follow (n : nat) (domain token : string) (w : World) (i : nat)
    (r : Request) :
  requests (pages n domain token w) !! S i = Some r →
  ∃ res entries t,
    responses (pages n domain token w) !! i = Some res
    ∧ Page res entries t ∧ t ≠ ""
    ∧ tokens (pages n domain token w) !! i = Some t
    ∧ r = pageRequest domain t.
Proof.
  revert token w i. induction n as [|n IH]; intros token w i; simpl; [done|].
  destruct (client_Do w (pageRequest domain token)) as [w' res].
  destruct (handle res) as [err|m|records newToken] eqn:Hres; simpl;
    try (by destruct i).
  apply handle_page in Hres as (entries & HP & _).
  destruct (decide (newToken = "")) as [|Hne]; simpl; [by destruct i|].
  destruct i as [|i]; simpl.
  - intros Hr. exists res, entries, newToken. repeat split; try done.
    destruct n as [|n]; [done|]. simpl in Hr.
    destruct (client_Do w' (pageRequest domain newToken)) as [w'' res'].
    destruct (handle res') as [?|?|? t']; simpl in Hr; try congruence.
    destruct (decide (t' = "")); simpl in Hr; congruence.
  - apply IH.
Qed.

(** A run whose responses are all pages with a token uses up its
    iterations. *)
Lemma pages_all_pages (n : nat) (domain token : string) (w : World) :
  Forall (λ res, ∃ entries t, Page res entries t ∧ t ≠ "")
         (responses (pages n domain token w)) →
  length (requests (pages n domain token w)) = n
  ∧ ret (pages n domain token w) = Return None.
Proof.
  revert token w. induction n as [|n IH]; intros token w; simpl; [done|].
  destruct (client_Do w (pageRequest domain token)) as [w' res].
  destruct (handle res) as [err|m|records newToken] eqn:Hres; simpl.
  - intros [(entries & t & HP & _) _]%Forall_cons.
    assert (handle res = PageOK (map entryRecord entries) t) as Hok
      by (apply handle_page; eauto).
    congruence.
  - by apply handle_no_panic in Hres.
  - apply handle_page in Hres as (entries & HP & _).
    destruct (decide (newToken = "")) as [->|Hne]; simpl.
    + intros [(entries' & t & HP' & Ht) _]%Forall_cons.
      by destruct (Page_token _ _ _ _ _ HP HP') as [_ <-].
    + intros [_ Hall]%Forall_cons. destruct (IH _ _ Hall) as [-> ->]. done.
Qed.

(** The same from the side of the server: when it answers every request
    of the scan, in the state and for the token the scan has got to, with
    a page and another token. *)
Lemma pages_server (I : World → string → Prop) (n : nat)
    (domain token : string) (w : World) :
  (∀ w token, I w token →
     ∃ w' res entries newToken,
       client_Do w (pageRequest domain token) = (w', res)
       ∧ Page res entries newToken ∧ newToken ≠ "" ∧ I w' newToken) →
  I w token →
  Forall (λ res, ∃ entries t, Page res entries t ∧ t ≠ "")
         (responses (pages n domain token w)).
Proof.
  intros Hmore. revert token w. induction n as [|n IH]; intros token w HI.
  { constructor. }
  destruct (Hmore w token HI) as (w' & res & entries & newToken & Hdo & HP & Hne & HI').
  assert (handle res = PageOK (map entryRecord entries) newToken) as Hok
    by (apply handle_page; eauto).
  rewrite (pages_more _ _ _ _ _ _ _ _ Hdo Hok Hne). simpl.
  constructor; [eauto | by apply IH].
Qed.

(** C10: with a page limit of zero or less the loop body never runs: the
    scan sends no request, sends no record, returns nil and leaves the
    world as it found it. *)
Theorem scan_no_pages (domain : string) (w : World) :
  maxPages ≤ 0 →
  scan maxPages domain w = mkScanRun [] [] [] [] (Return None) w.
Proof.
  intros Hmax. unfold scan.
  by replace (Z.to_nat maxPages) with 0%nat by lia.
Qed.

(** C4: when every response to the scan of [domain] is a page with a
    token that is not empty, the scan sends exactly [maxPages] requests
    (none for a limit under zero) and returns nil.  The condition is stated
    twice: on the server, which answers each request with such a page in the
    state and for the token the scan has got to ([I] holds of them; the
    server may check the token), and on the responses the scan got.  These
    responses are what the world answered to the requests, in turn.  In
    every world the scan sends at most [maxPages] requests, and a response
    that is a page with an empty token is the last: the request it answers
    is the last one sent and the scan returns nil.  A request that follows
    another carries the token of the page that answered that one, which was
    not empty. *)
Theorem scan_pagination (domain : string) (w : World) :
  (∀ I : World → string → Prop,
     I w "" →
     (∀ w token, I w token →
        ∃ w' res entries newToken,
          client_Do w (pageRequest domain token) = (w', res)
          ∧ Page res entries newToken ∧ newToken ≠ "" ∧ I w' newToken) →
     Z.of_nat (length (requests (scan maxPages domain w))) = Z.max 0 maxPages
     ∧ ret (scan maxPages domain w) = Return None)
  ∧ (Forall (λ res, ∃ entries token, Page res entries token ∧ token ≠ "")
            (responses (scan maxPages domain w)) →
     Z.of_nat (length (requests (scan maxPages domain w))) = Z.max 0 maxPages
     ∧ ret (scan maxPages domain w) = Return None)
  ∧ replay (requests (scan maxPages domain w)) w
    = (after (scan maxPages domain w), responses (scan maxPages domain w))
  ∧ Z.of_nat (length (requests (scan maxPages domain w))) ≤ Z.max 0 maxPages
  ∧ (∀ (i : nat) (res : Response + error) (entries : list Json),
       responses (scan maxPages domain w) !! i = Some res →
       Page res entries "" →
       length (requests (scan maxPages domain w)) = S i
       ∧ ret (scan maxPages domain w) = Return None)
  ∧ (∀ (i : nat) (r : Request),
       requests (scan maxPages domain w) !! S i = Some r →
       ∃ res entries token,
         responses (scan maxPages domain w) !! i = Some res
         ∧ Page res entries token ∧ token ≠ ""
         ∧ r = pageRequest domain token).
Proof.
  unfold scan. split; [|split; [|split; [|split; [|split]]]].
  - intros I HI Hmore.
    destruct (pages_all_pages (Z.to_nat maxPages) domain "" w
                (pages_server I _ _ _ _ Hmore HI)) as [Hlen Hret].
    split; [rewrite Hlen; lia | done].
  - intros Hall.
    destruct (pages_all_pages (Z.to_nat maxPages) domain "" w Hall) as [Hlen Hret].
    split; [rewrite Hlen; lia | done].
  - apply pages_replay.
  - destruct (pages_requests (Z.to_nat maxPages) domain "" w) as [Hle _]. lia.
  - intros i res entries. apply pages_stop_empty.
  - intros i r Hr.
    destruct (pages_follow _ _ _ _ _ _ Hr) as (res & entries & t & ? & ? & ? & _ & ?).
    eauto 10.
Qed.

(** ** [ScanStream] *)

Lemma claimed_elem (keys : list string) (seen : gset string) (k : string) :
  k ∈ claimed keys seen ↔ k ∈ keys ∧ k ∉ seen.
Proof.
  revert seen. induction keys as [|k' keys IH]; intros seen; simpl.
  - set_solver.
  - destruct (decide (k' ∈ seen)).
    + rewrite IH. set_solver.
    + rewrite elem_of_cons, IH. destruct (decide (k = k')); set_solver.
Qed.

Lemma claimed_NoDup (keys : list string) (seen : gset string) :
  NoDup (claimed keys seen).
Proof.
  revert seen. induction keys as [|k keys IH]; intros seen; simpl.
  - constructor.
  - destruct (decide (k ∈ seen)); [apply IH|].
    constructor; [|apply IH]. rewrite claimed_elem. set_solver.
Qed.

(** The calls of [scan] of a worker are the keys claimed among the domains
    it received. *)
Lemma ScanStream_calls (in_ : list string) (scanned : gset string) (w : World) :
  ∃ consumed,
    in_ = (consumed ++ unread (ScanStream maxPages in_ scanned w))%list
    ∧ (stream_ret (ScanStream maxPages in_ scanned w) = Return None →
       unread (ScanStream maxPages in_ scanned w) = [])
    ∧ map fst (calls (ScanStream maxPages in_ scanned w))
      = claimed (map normalizeDomain consumed) scanned
    ∧ Forall (λ c, ∃ w', snd c = scan maxPages (fst c) w') (calls (ScanStream maxPages in_ scanned w))
    ∧ scanned_after (ScanStream maxPages in_ scanned w)
      = list_to_set (map fst (calls (ScanStream maxPages in_ scanned w))) ∪ scanned.
Proof.
  revert scanned w. induction in_ as [|d rest IH]; intros scanned w.
  { exists []. simpl. repeat split; [constructor | set_solver]. }
  simpl. destruct (decide (normalizeDomain d ∈ scanned)) as [Hin|Hin].
  - destruct (IH scanned w) as (consumed & Hsplit & Hnil & Hcalls & Hscan & Hset).
    exists (d :: consumed). simpl.
    destruct (decide (normalizeDomain d ∈ scanned)); [|done].
    split; [by rewrite <- Hsplit|]. done.
  - destruct (ret (scan maxPages (normalizeDomain d) w)) as [[err|]|m] eqn:Hret.
    + exists [d]. simpl. destruct (decide (normalizeDomain d ∈ scanned)); [done|].
      repeat split; [done | by repeat econstructor | set_solver].
    + destruct (IH ({[normalizeDomain d]} ∪ scanned) (after (scan maxPages (normalizeDomain d) w)))
        as (consumed & Hsplit & Hnil & Hcalls & Hscan & Hset).
      exists (d :: consumed). simpl.
      destruct (decide (normalizeDomain d ∈ scanned)); [done|].
      split; [by rewrite <- Hsplit|]. split; [done|].
      split; [by rewrite Hcalls|]. split; [constructor; eauto|].
      rewrite Hset. set_solver.
    + exists [d]. simpl. destruct (decide (normalizeDomain d ∈ scanned)); [done|].
      repeat split; [done | by repeat econstructor | set_solver].
Qed.

(** A worker returns nil exactly when every scan it called returned nil;
    it returns what the last scan returned otherwise. *)
Lemma ScanStream_ret (in_ : list string) (scanned : gset string) (w : World) :
  (stream_ret (ScanStream maxPages in_ scanned w) = Return None
   ↔ Forall (λ c, ret (snd c) = Return None) (calls (ScanStream maxPages in_ scanned w)))
  ∧ (stream_ret (ScanStream maxPages in_ scanned w) ≠ Return None →
     ∃ c, last (calls (ScanStream maxPages in_ scanned w)) = Some c
          ∧ ret (snd c) = stream_ret (ScanStream maxPages in_ scanned w)).
Proof.
  revert scanned w. induction in_ as [|d rest IH]; intros scanned w; simpl.
  { split; [done|]. by intros []. }
  destruct (decide (normalizeDomain d ∈ scanned)); [apply IH|].
  destruct (ret (scan maxPages (normalizeDomain d) w)) as [[err|]|m] eqn:Hret; simpl.
  - split; [|intros _; eauto].
    split; [done|]. intros [Hc _]%Forall_cons. simpl in Hc. congruence.
  - destruct (IH ({[normalizeDomain d]} ∪ scanned) (after (scan maxPages (normalizeDomain d) w)))
      as [Hnil Herr].
    split.
    + rewrite Hnil. split; [by constructor|]. by intros [_ ?]%Forall_cons.
    + intros (c & Hlast & Hc)%Herr. exists c. split; [|done].
      rewrite last_cons. by rewrite Hlast.
  - split; [|intros _; eauto].
    split; [done|]. intros [Hc _]%Forall_cons. simpl in Hc. congruence.
Qed.

(** The same for the pool: whatever the order in which the workers take
    the lock, [scan] is called once for each distinct trimmed domain that
    was not in the set. *)
Lemma scanPool_calls (in_ : list string) (scanned : gset string) (w : World) :
  map fst (scanPool maxPages in_ scanned w)
  = claimed (map normalizeDomain in_) scanned.
Proof.
  revert scanned w. induction in_ as [|d rest IH]; intros scanned w; [done|].
  cbn [scanPool map claimed]. cbn [ScanStream].
  destruct (decide (normalizeDomain d ∈ scanned)) as [Hin|Hin].
  - cbn [calls scanned_after stream_after]. apply IH.
  - destruct (ret (scan maxPages (normalizeDomain d) w)) as [[err|]|m];
      cbn [calls scanned_after stream_after app map fst]; by rewrite IH.
Qed.

Lemma claimed_sublist (keys : list string) (seen : gset string) :
  claimed keys seen `sublist_of` keys.
Proof.
  revert seen. induction keys as [|k keys IH]; intros seen; simpl; [done|].
  destruct (decide (k ∈ seen)); [by apply sublist_cons | by apply sublist_skip].
Qed.

(** What a worker did, over the domains it took from [s.in]: it took them
    up to the first whose scan failed, called [scan] for those not yet in
    the set, each in the world the scan before left, and put every one of
    them in the set. *)
Lemma ScanStream_consumed (in_ : list string) (scanned : gset string) (w : World) :
  ∃ consumed,
    in_ = (consumed ++ unread (ScanStream maxPages in_ scanned w))%list
    ∧ (stream_ret (ScanStream maxPages in_ scanned w) = Return None →
       unread (ScanStream maxPages in_ scanned w) = [])
    ∧ (stream_ret (ScanStream maxPages in_ scanned w) ≠ Return None →
       ∃ before d init run,
         consumed = (before ++ [d])%list
         ∧ calls (ScanStream maxPages in_ scanned w)
           = (init ++ [(TrimSpace d, run)])%list
         ∧ ret run = stream_ret (ScanStream maxPages in_ scanned w)
         ∧ Forall (λ c, ret (snd c) = Return None) init)
    ∧ map fst (calls (ScanStream maxPages in_ scanned w))
      = claimed (map TrimSpace consumed) scanned
    ∧ calls (ScanStream maxPages in_ scanned w)
      = scanEach maxPages (map fst (calls (ScanStream maxPages in_ scanned w))) w
    ∧ stream_after (ScanStream maxPages in_ scanned w)
      = from_option (λ c, after (snd c)) w
                    (last (calls (ScanStream maxPages in_ scanned w)))
    ∧ scanned_after (ScanStream maxPages in_ scanned w)
      = list_to_set (map TrimSpace consumed) ∪ scanned.
Proof.
  revert scanned w. induction in_ as [|d rest IH]; intros scanned w.
  { exists []. simpl. repeat split; [done | set_solver]. }
  cbn [ScanStream]. unfold normalizeDomain.
  destruct (decide (TrimSpace d ∈ scanned)) as [Hin|Hin].
  - destruct (IH scanned w)
      as (consumed & Hsplit & Hnil & Hfail & Hcalls & Heach & Hafter & Hset).
    exists (d :: consumed). cbn [map claimed].
    destruct (decide (TrimSpace d ∈ scanned)); [|done].
    split; [by rewrite Hsplit at 1|]. split; [done|].
    split.
    { intros (before & d' & init & run & -> & ? & ? & ?)%Hfail.
      by exists (d :: before), d', init, run. }
    split; [done|]. split; [done|]. split; [done|].
    rewrite Hset. set_solver.
  - destruct (ret (scan maxPages (TrimSpace d) w)) as [[err|]|m] eqn:Hret.
    + exists [d]. cbn [map claimed calls unread stream_ret stream_after scanned_after fst scanEach].
      destruct (decide (TrimSpace d ∈ scanned)); [done|].
      split; [done|]. split; [done|].
      split.
      { intros _. exists [], d, [], (scan maxPages (TrimSpace d) w).
        by repeat split. }
      split; [done|]. split; [done|]. split; [done|]. set_solver.
    + destruct (IH ({[TrimSpace d]} ∪ scanned) (after (scan maxPages (TrimSpace d) w)))
        as (consumed & Hsplit & Hnil & Hfail & Hcalls & Heach & Hafter & Hset).
      exists (d :: consumed).
      cbn [map claimed calls unread stream_ret stream_after scanned_after fst scanEach].
      destruct (decide (TrimSpace d ∈ scanned)); [done|].
      split; [by rewrite Hsplit at 1|]. split; [done|].
      split.
      { intros (before & d' & init & run & -> & -> & ? & ?)%Hfail.
        exists (d :: before), d', ((TrimSpace d, scan maxPages (TrimSpace d) w) :: init), run.
        repeat split; [done|]. by constructor. }
      split; [by rewrite Hcalls|]. split; [by rewrite <- Heach|].
      split.
      { rewrite Hafter, last_cons.
        by destruct (last (calls (ScanStream maxPages rest ({[TrimSpace d]} ∪ scanned)
                                    (after (scan maxPages (TrimSpace d) w))))). }
      rewrite Hset. set_solver.
    + exists [d]. cbn [map claimed calls unread stream_ret stream_after scanned_after fst scanEach].
      destruct (decide (TrimSpace d ∈ scanned)); [done|].
      split; [done|]. split; [done|].
      split.
      { intros _. exists [], d, [], (scan maxPages (TrimSpace d) w).
        by repeat split. }
      split; [done|]. split; [done|]. split; [done|]. set_solver.
Qed.

(** C1: a worker takes the domains of [s.in] in turn ([consumed]) and
    stops only when the channel is closed, returning nil, or when a scan
    fails, returning what that scan returned: the domain it took last is
    then the one of that scan, and the scans before it returned nil.  Over
    the domains it took, [scan] is called exactly once for each distinct
    trimmed domain ([strings.TrimSpace] of the string received) that was not
    in the set, and for no other, in the order in which they first come,
    each scan in the world the scan before left; a domain in the set is
    passed over, with no call and no request; every domain taken is in the
    set afterwards. *)
Theorem ScanStream_dedup (in_ : list string) (scanned : gset string) (w : World) :
  ∃ consumed,
    in_ = (consumed ++ unread (ScanStream maxPages in_ scanned w))%list
    ∧ (stream_ret (ScanStream maxPages in_ scanned w) = Return None →
       unread (ScanStream maxPages in_ scanned w) = [])
    ∧ (stream_ret (ScanStream maxPages in_ scanned w) = Return None
       ↔ Forall (λ c, ret (snd c) = Return None)
                (calls (ScanStream maxPages in_ scanned w)))
    ∧ (stream_ret (ScanStream maxPages in_ scanned w) ≠ Return None →
       ∃ before d init run,
         consumed = (before ++ [d])%list
         ∧ calls (ScanStream maxPages in_ scanned w)
           = (init ++ [(TrimSpace d, run)])%list
         ∧ ret run = stream_ret (ScanStream maxPages in_ scanned w)
         ∧ Forall (λ c, ret (snd c) = Return None) init)
    ∧ NoDup (map fst (calls (ScanStream maxPages in_ scanned w)))
    ∧ (∀ d, d ∈ map fst (calls (ScanStream maxPages in_ scanned w))
            ↔ d ∈ map TrimSpace consumed ∧ d ∉ scanned)
    ∧ map fst (calls (ScanStream maxPages in_ scanned w))
      `sublist_of` map TrimSpace consumed
    ∧ map fst (calls (ScanStream maxPages in_ scanned w))
      = claimed (map TrimSpace consumed) scanned
    ∧ calls (ScanStream maxPages in_ scanned w)
      = scanEach maxPages (map fst (calls (ScanStream maxPages in_ scanned w))) w
    ∧ stream_after (ScanStream maxPages in_ scanned w)
      = from_option (λ c, after (snd c)) w
                    (last (calls (ScanStream maxPages in_ scanned w)))
    ∧ scanned_after (ScanStream maxPages in_ scanned w)
      = list_to_set (map TrimSpace consumed) ∪ scanned
    ∧ (∀ d rest, TrimSpace d ∈ scanned →
         ScanStream maxPages (d :: rest) scanned w = ScanStream maxPages rest scanned w).
Proof.
  destruct (ScanStream_consumed in_ scanned w)
    as (consumed & Hsplit & Hnil & Hfail & Hcalls & Heach & Hafter & Hset).
  exists consumed. split; [done|]. split; [done|].
  split; [apply ScanStream_ret|]. split; [done|].
  split; [rewrite Hcalls; apply claimed_NoDup|].
  split; [intros d; rewrite Hcalls; apply claimed_elem|].
  split; [rewrite Hcalls; apply claimed_sublist|].
  split; [done|]. split; [done|]. split; [done|]. split; [done|].
  intros d rest Hd. simpl. unfold normalizeDomain.
  by destruct (decide (TrimSpace d ∈ scanned)).
Qed.




End ScanProofs.

(** ** [Resolve] *)

Lemma prefix_one (a c : ascii) (s : string) :
  String.prefix (String a EmptyString) (String c s) = bool_decide (a = c).
Proof.
  cbn [String.prefix]. destruct (ascii_dec a c) as [->|Hne].
  - rewrite bool_decide_eq_true_2 by done. by destruct s.
  - by rewrite bool_decide_eq_false_2.
Qed.

Lemma wontResolve_spec (name : string) :
  wontResolve name = true
  ↔ (∃ s, name = String "*"%char s) ∨ (∃ s, name = String "034"%char s).
Proof.
  unfold wontResolve, HasPrefix, dquote. destruct name as [|c s].
  - split; [done | by intros [[? ?]|[? ?]]].
  - rewrite !prefix_one, orb_true_iff, !bool_decide_eq_true.
    split; (intros [H|H]; [left|right]).
    + exists s. by rewrite H.
    + exists s. by rewrite H.
    + destruct H as [s' [= -> _]]. done.
    + destruct H as [s' [= -> _]]. done.
Qed.

Section ResolveProofs.

Context {env : Env}.

(** The records a worker forwards are the first ones of each name that was
    not in the set; the names it looks up are those among them that are
    neither wildcards nor quoted. *)
Lemma Resolve_names (in_ : list CTRecord) (resolved : gset string) (w : World) :
  map Name (forwarded (Resolve in_ resolved w))
  = claimed (map Name in_) resolved
  ∧ lookups (Resolve in_ resolved w)
    = List.filter (λ n, negb (wontResolve n)) (claimed (map Name in_) resolved)
  ∧ resolve_ret (Resolve in_ resolved w) = None.
Proof.
  revert resolved w. induction in_ as [|record rest IH]; intros resolved w; simpl.
  { done. }
  destruct (decide (Name record ∈ resolved)); [apply IH|].
  destruct (wontResolve (Name record)) eqn:Hwont; simpl.
  - destruct (IH ({[Name record]} ∪ resolved) w) as (-> & -> & ->).
    by rewrite Hwont.
  - destruct (LookupHost w (Name record)) as [w' [addrs err]]; simpl.
    destruct (IH ({[Name record]} ∪ resolved) w') as (-> & -> & ->).
    by rewrite Hwont.
Qed.

(** A record whose name is in the set, or was carried by an earlier record,
    leaves no trace. *)
Lemma Resolve_drop (l1 l2 : list CTRecord) (record : CTRecord)
    (resolved : gset string) (w : World) :
  Name record ∈ resolved ∨ Name record ∈ map Name l1 →
  Resolve (l1 ++ record :: l2) resolved w = Resolve (l1 ++ l2) resolved w.
Proof.
  revert resolved w. induction l1 as [|r1 l1 IH]; intros resolved w Hseen; simpl.
  - destruct Hseen as [Hin|Hin]; [|by apply elem_of_nil in Hin].
    by destruct (decide (Name record ∈ resolved)).
  - destruct (decide (Name r1 ∈ resolved)) as [Hr1|Hr1].
    + apply IH. destruct Hseen as [?|Hin]; [by left|].
      simpl in Hin. apply elem_of_cons in Hin as [->|?]; [by left | by right].
    + assert (Hseen' : Name record ∈ {[Name r1]} ∪ resolved
                       ∨ Name record ∈ map Name l1).
      { destruct Hseen as [?|Hin]; [left; set_solver|].
        simpl in Hin. apply elem_of_cons in Hin as [->|?];
          [left; set_solver | by right]. }
      destruct (wontResolve (Name r1)).
      * by rewrite (IH _ w Hseen').
      * destruct (LookupHost w (Name r1)) as [w' [addrs err]].
        by rewrite (IH _ w' Hseen').
Qed.

(** C2: a worker looks a name up at most once, and only a name that was not
    in the set; it forwards one record for each distinct name that was not
    in the set; a record whose name is in the set or was carried by an
    earlier record is dropped: what the worker does is what it does without
    that record. *)
Theorem Resolve_dedup (in_ : list CTRecord) (resolved : gset string) (w : World) :
  let run := Resolve in_ resolved w in
  NoDup (lookups run)
  ∧ (∀ n, n ∈ lookups run
          ↔ n ∈ map Name in_ ∧ (n ∉ resolved) ∧ wontResolve n = false)
  ∧ NoDup (map Name (forwarded run))
  ∧ (∀ n, n ∈ map Name (forwarded run) ↔ n ∈ map Name in_ ∧ n ∉ resolved)
  ∧ (∀ l1 record l2,
       in_ = (l1 ++ record :: l2)%list →
       Name record ∈ resolved ∨ Name record ∈ map Name l1 →
       run = Resolve ((l1 ++ l2)%list) resolved w)
  ∧ resolve_ret run = None.
Proof.
  intros run. subst run.
  destruct (Resolve_names in_ resolved w) as (Hfwd & Hlook & Hret).
  split; [rewrite Hlook; apply NoDup_ListNoDup, List.NoDup_filter, NoDup_ListNoDup, claimed_NoDup|].
  split.
  { intros n. rewrite Hlook, list_elem_of_In, filter_In, <- list_elem_of_In.
    rewrite claimed_elem, negb_true_iff. tauto. }
  split; [rewrite Hfwd; apply claimed_NoDup|].
  split; [intros n; rewrite Hfwd; apply claimed_elem|].
  split; [|done].
  intros l1 record l2 -> Hseen. by apply Resolve_drop.
Qed.

End ResolveProofs.

(** ** From the scan to the sink *)

Section PipelineProofs.

Context {env : Env}.
Variable maxPages : Z.

(** The records [scan] sends carry the domain, and no address or error. *)
Lemma pages_sent (n : nat) (domain token : string) (w : World)
    (record : CTRecord) :
  record ∈ sent (pages n domain token w) →
  From_ record = domain ∧ Addrs record = [] ∧ Err record = None.
Proof.
  revert token w. induction n as [|n IH]; intros token w; simpl.
  { intros H. by apply elem_of_nil in H. }
  destruct (client_Do w (pageRequest domain token)) as [w' res].
  destruct (handle res) as [err|m|records newToken] eqn:Hres; simpl;
    try (intros H; by apply elem_of_nil in H).
  assert (Hpage : ∀ r, r ∈ map (markFrom domain) records →
                       From_ r = domain ∧ Addrs r = [] ∧ Err r = None).
  { intros r (r0 & -> & Hr0)%list_elem_of_fmap.
    destruct (handle_ok _ _ _ Hres) as (b & _ & _ & Hb & _).
    destruct (parseCTData_unresolved _ _ _ _ _ _ Hb Hr0) as [Ha He].
    by simpl. }
  destruct (decide (newToken = "")); simpl; [apply Hpage|].
  intros [?|?]%elem_of_app; [by apply Hpage | by eapply IH].
Qed.

(** C5: a record the scan stage sent whose name starts with a star or a
    double quote, and is not in the resolved set, is forwarded as it is: no
    lookup is made for it, the world is left alone, the record still has no
    address and no error, and the sink writes no row for it. *)
Theorem wildcard_bypass (domain : string) (w0 : World) (record : CTRecord)
    (rest : list CTRecord) (resolved : gset string) (w : World) :
  record ∈ sent (scan maxPages domain w0) →
  (∃ s, Name record = String "*"%char s)
  ∨ (∃ s, Name record = String "034"%char s) →
  Name record ∉ resolved →
  lookups (Resolve (record :: rest) resolved w)
  = lookups (Resolve rest ({[Name record]} ∪ resolved) w)
  ∧ forwarded (Resolve (record :: rest) resolved w)
    = record :: forwarded (Resolve rest ({[Name record]} ∪ resolved) w)
  ∧ resolve_after (Resolve (record :: rest) resolved w)
    = resolve_after (Resolve rest ({[Name record]} ∪ resolved) w)
  ∧ Addrs record = [] ∧ Err record = None
  ∧ sink [record] = []
  ∧ (∀ wr, sinkRecord wr record = wr).
Proof.
  intros Hsent Hname Hnew.
  apply pages_sent in Hsent as (_ & Haddrs & Herr).
  apply wontResolve_spec in Hname.
  assert (Hrows : rowsOf record = []).
  { unfold rowsOf. by rewrite Herr, Haddrs. }
  simpl. destruct (decide (Name record ∈ resolved)); [done|].
  rewrite Hname. simpl. repeat split; try done.
  - unfold sink; simpl. by rewrite sinkRecord_rows, Hrows.
  - intros wr. by rewrite sinkRecord_rows, Hrows, app_nil_r.
Qed.

End PipelineProofs.

(** ** Runs on the sample input *)

Lemma scan_no_pages_witness :
  -1 ≤ 0
  ∧ scan (env := sample.listed) (-1) "example.com"
         [inl (standin.ok sample.wildcardPage)]
    = mkScanRun [] [] [] [] (Return None) [inl (standin.ok sample.wildcardPage)].
Proof.
  split; [lia|]. apply (scan_no_pages (env := sample.listed) (-1)). lia.
Defined.

Lemma scan_pagination_witness :
  Z.of_nat (length (requests (scan (env := sample.endless) 3 "example.com" tt)))
  = Z.max 0 3
  ∧ ret (scan (env := sample.endless) 3 "example.com" tt) = Return None.
Proof.
  apply (proj1 (scan_pagination (env := sample.endless) 3 "example.com" tt)
               (λ _ _, True)); [exact I|].
  intros w token _.
  destruct (proj1 (handle_page (env := sample.endless)
                     (inl (standin.ok sample.morePage)) [] "tok") eq_refl)
    as (entries & HP & _).
  exists tt, (inl (standin.ok sample.morePage)), entries, "tok".
  split; [by destruct w|]. split; [exact HP|]. split; [discriminate|exact I].
Defined.

Lemma parseCTData_Name_witness :
  parseCTData standin.NewJson (standin.body sample.wildcardPage)
  = ([mkRecord "" "*.example.com" "CA" 1605043123456 1612819123456 [] None],
     "", None)
  ∧ ∃ j entries,
      standin.NewJson (standin.body sample.wildcardPage) = inl j
      ∧ Array (GetIndex (GetIndex j 0) 1) = Some entries
      ∧ length [mkRecord "" "*.example.com" "CA" 1605043123456 1612819123456 [] None]
        = length entries
      ∧ ∀ (i : nat) (record : CTRecord),
          [mkRecord "" "*.example.com" "CA" 1605043123456 1612819123456 [] None]
            !! i = Some record →
          ∃ entry,
            entries !! i = Some entry
            ∧ Name record = MustString (GetIndex entry 1)
            ∧ (Name record ≠ ""
               ↔ ∃ s, String_ (GetIndex entry 1) = Some s ∧ s ≠ "").
Proof.
  split; [by vm_compute|].
  apply (parseCTData_Name standin.NewJson (standin.body sample.wildcardPage)
                          _ EmptyString).
  by vm_compute.
Defined.

Lemma wildcard_bypass_witness :
  sample.star ∈ sent (scan (env := sample.listed) 50 "example.com"
                           [inl (standin.ok sample.wildcardPage)])
  ∧ (Name sample.star ∉ (∅ : gset string))
  ∧ lookups (Resolve (env := sample.listed) [sample.star] ∅ []) = []
  ∧ forwarded (Resolve (env := sample.listed) [sample.star] ∅ []) = [sample.star]
  ∧ sink [sample.star] = [].
Proof.
  assert (Hsent : sample.star ∈ sent (scan (env := sample.listed) 50 "example.com"
                                           [inl (standin.ok sample.wildcardPage)])).
  { vm_compute. constructor. }
  assert (Hnew : Name sample.star ∉ (∅ : gset string)) by apply not_elem_of_empty.
  destruct (wildcard_bypass (env := sample.listed) 50 "example.com"
              [inl (standin.ok sample.wildcardPage)] sample.star [] ∅ [] Hsent
              (or_introl (ex_intro _ ".example.com" eq_refl)) Hnew)
    as (Hlook & Hfwd & _ & _ & _ & Hsink & _).
  split; [exact Hsent|]. split; [exact Hnew|].
  split; [exact Hlook|]. split; [exact Hfwd|exact Hsink].
Defined.


(** C9 as stated fails: the page parses, and its record has an empty
    [Name]. *)
Lemma Name_may_be_empty :
  parseCTData standin.NewJson (standin.body sample.noSubject)
  = ([mkRecord "" "" "CA" 1 2 [] None], "", None)
  ∧ ∃ records token record,
      parseCTData standin.NewJson (standin.body sample.noSubject)
      = (records, token, None)
      ∧ record ∈ records ∧ Name record = "".
Proof.
  split; [by vm_compute|].
  exists [mkRecord "" "" "CA" 1 2 [] None], "", (mkRecord "" "" "CA" 1 2 [] None).
  split; [by vm_compute|]. split; [constructor|done].
Qed.

(** The scan of a domain whose second page has an empty token sends two
    requests, the first with the domain and the second with the token only,
    and leaves the third response unread. *)
Example scan_stops_on_empty_token :
  let run := scan (env := sample.listed) 50 "example.com"
               [inl (standin.ok sample.morePage);
                inl (standin.ok sample.wildcardPage);
                inl (standin.ok sample.morePage)] in
  map Query (requests run)
  = [[("domain", "example.com"); ("include_subdomains", "true")]; [("p", "tok")]]
  ∧ tokens run = ["tok"; ""]
  ∧ sent run = [sample.star]
  ∧ ret run = Return None
  ∧ after run = [inl (standin.ok sample.morePage)].
Proof. by vm_compute. Qed.

(** A worker given the same domain twice, with different white space, and
    then another domain, calls [scan] for the two distinct domains. *)
Example ScanStream_twice :
  let stream := ScanStream (env := sample.listed) 50
                  [" example.com"; "example.com  "; "example.org"] ∅
                  [inl (standin.ok sample.wildcardPage);
                   inl (standin.ok sample.wildcardPage)] in
  map fst (calls stream) = ["example.com"; "example.org"]
  ∧ unread stream = []
  ∧ stream_ret stream = Return None.
Proof. by vm_compute. Qed.

(** A worker whose first request is refused returns the error and leaves
    the other domain unread; with that error among the results of the scan
    workers the process is ended, no channel closed. *)
Example refused_connection :
  let stream := ScanStream (env := sample.listed) 50
                  ["example.com"; "example.org"] ∅ [] in
  stream_ret stream = Return (Some "sending request: connection refused")
  ∧ map fst (calls stream) = ["example.com"]
  ∧ unread stream = ["example.org"]
  ∧ supervise [None; Some "sending request: connection refused"; None] [None]
    = [Fatal "error in scanner: sending request: connection refused"]
  ∧ supervise [None; None] [None] = [CloseScannerOut; CloseResolverOut].
Proof. by vm_compute. Qed.

(** Two domains that find the same name: one lookup, one record forwarded,
    one row per address. *)
Example shared_name :
  let found (domain : string) := mkRecord domain "shared.example.com" "CA" 1 2 [] None in
  let run := Resolve (env := standin.env standin.serve
                                [("shared.example.com", ["192.0.2.1"; "192.0.2.2"])])
               [found "example.com"; found "example.org"] ∅ [] in
  lookups run = ["shared.example.com"]
  ∧ sink (forwarded run)
    = [["example.com"; "shared.example.com"; "192.0.2.1"; ""];
       ["example.com"; "shared.example.com"; "192.0.2.2"; ""]].
Proof. by vm_compute. Qed.

(** A body of three bytes, the first three of the prefix, is parsed as it
    is, and refused by the decoder. *)
Example short_body :
  readPage (env := sample.listed) (mkReader (standin.body ")]}") None)
  = PageError "parsing CT data: parsing JSON: invalid JSON".
Proof. by vm_compute. Qed.

(** * More of the program *)

(** ** The reader of the input *)

Section FeedProofs.

Context {env : Env}.
Variable maxPages : Z.

Lemma ignored_spec (d : string) :
  ignored d = false ↔ d ≠ "" ∧ ¬ (∃ s, d = String "#"%char s).
Proof.
  destruct d as [|c s]; simpl.
  - split; [done | by intros [? _]].
  - rewrite bool_decide_eq_false. split.
    + intros Hc. split; [done|]. intros [s' [= -> _]]. done.
    + intros [_ Hc] ->. apply Hc. by exists s.
Qed.

Lemma feed_elem (lines : list string) (d : string) :
  d ∈ feed lines
  ↔ ∃ line, line ∈ lines ∧ d = TrimSpace line ∧ ignored d = false.
Proof.
  induction lines as [|line rest IH]; simpl.
  - split; [by intros ?%elem_of_nil | by intros (? & ?%elem_of_nil & _)].
  - destruct (ignored (TrimSpace line)) eqn:Hig.
    + rewrite IH. split.
      * intros (l & Hl & Hd). exists l. split; [by right|done].
      * intros (l & [->|Hl]%elem_of_cons & -> & Hd); [congruence|]. eauto.
    + rewrite elem_of_cons, IH. split.
      * intros [->|(l & Hl & Hd)]; [exists line; split; [by left|done]|].
        exists l. split; [by right|done].
      * intros (l & [->|Hl]%elem_of_cons & Hd); [by left; destruct Hd|].
        right. eauto.
Qed.

(** X1: the reader sends on [scanner.in] the trimmed lines that are not
    empty and do not start with a sharp, and nothing else, in the order of
    the lines; what it sends for a line does not depend on the other
    lines. *)
Theorem feed_domains (lines : list string) :
  (∀ d, d ∈ feed lines
        ↔ ∃ line, line ∈ lines ∧ d = TrimSpace line
                  ∧ d ≠ "" ∧ ¬ (∃ s, d = String "#"%char s))
  ∧ feed lines `sublist_of` map TrimSpace lines
  ∧ (∀ more, feed (lines ++ more) = (feed lines ++ feed more)%list).
Proof.
  split; [|split].
  - intros d. rewrite feed_elem. by setoid_rewrite ignored_spec.
  - induction lines as [|line rest IH]; simpl; [constructor|].
    destruct (ignored (TrimSpace line)); by constructor.
  - intros more. induction lines as [|line rest IH]; simpl; [done|].
    destruct (ignored (TrimSpace line)); by rewrite IH.
Qed.

(** X2: when trimming a trimmed line changes nothing, the domains [scan]
    is called for, over what the reader sends, are trimmed lines of the
    input that are not empty and do not start with a sharp: no comment and
    no blank line is ever scanned. *)
Theorem no_comment_scanned (lines : list string) (scanned : gset string)
    (w : World) :
  Forall (λ line, TrimSpace (TrimSpace line) = TrimSpace line) lines →
  Forall (λ c, (∃ line, line ∈ lines ∧ fst c = TrimSpace line)
               ∧ fst c ≠ "" ∧ ¬ (∃ s, fst c = String "#"%char s))
         (calls (ScanStream maxPages (feed lines) scanned w)).
Proof.
  intros Hidem.
  destruct (ScanStream_calls maxPages (feed lines) scanned w)
    as (consumed & Hsplit & _ & Hcalls & _).
  apply Forall_forall. intros [d run] Hc. simpl.
  assert (Hd : d ∈ map fst (calls (ScanStream maxPages (feed lines) scanned w))).
  { apply list_elem_of_fmap. by exists (d, run). }
  rewrite Hcalls in Hd. apply claimed_elem in Hd as [Hd _].
  apply list_elem_of_fmap in Hd as (d0 & -> & Hd0).
  assert (Hfed : d0 ∈ feed lines).
  { rewrite Hsplit. apply elem_of_app. by left. }
  apply feed_elem in Hfed as (line & Hline & -> & Hig).
  rewrite Forall_forall in Hidem. unfold normalizeDomain.
  rewrite (Hidem line Hline). apply ignored_spec in Hig as [Hne Hsharp].
  split; [by exists line|done].
Qed.

End FeedProofs.

(** ** More on [scan] *)

Lemma elem_of_concat {A} (x : A) (ls : list (list A)) :
  x ∈ concat ls ↔ ∃ l, x ∈ l ∧ l ∈ ls.
Proof.
  induction ls as [|l ls IH]; simpl.
  - split; [by intros ?%elem_of_nil | by intros (? & _ & ?%elem_of_nil)].
  - rewrite elem_of_app, IH. split.
    + intros [?|(l' & ? & ?)]; [exists l; split; [done|by left]|].
      exists l'. split; [done|by right].
    + intros (l' & Hx & [->|?]%elem_of_cons); [by left|]. right. eauto.
Qed.

Section ScanMore.

Context {env : Env}.

Lemma pages_chain (n : nat) (domain token : string) (w : World) :
  (∀ r, requests (pages n domain token w) !! 0%nat = Some r →
        r = pageRequest domain token)
  ∧ (∀ i r, requests (pages n domain token w) !! S i = Some r →
            ∃ t, tokens (pages n domain token w) !! i = Some t
                 ∧ t ≠ "" ∧ r = pageRequest domain t).
Proof.
  revert token w. induction n as [|n IH]; intros token w; simpl; [done|].
  destruct (client_Do w (pageRequest domain token)) as [w' res].
  destruct (handle res) as [err|m|records newToken]; simpl;
    try (split; [by intros r [= <-] | by intros i r ?]).
  destruct (decide (newToken = "")) as [->|Hne]; simpl.
  - split; [by intros r [= <-] | by intros i r ?].
  - split; [by intros r [= <-]|].
    destruct (IH newToken w') as [Hfirst Hnext].
    intros [|i] r Hr; simpl in *.
    + exists newToken. split; [done|]. split; [done|]. by apply Hfirst.
    + by apply Hnext.
Qed.

Lemma pages_fixed_fields (n : nat) (domain token : string) (w : World) :
  Forall (λ r, Method r = "GET" ∧ Scheme r = "https"
               ∧ Host r = "transparencyreport.google.com"
               ∧ Header r = googleHeaders)
         (requests (pages n domain token w)).
Proof.
  assert (Hone : ∀ t, Method (pageRequest domain t) = "GET"
                      ∧ Scheme (pageRequest domain t) = "https"
                      ∧ Host (pageRequest domain t) = "transparencyreport.google.com"
                      ∧ Header (pageRequest domain t) = googleHeaders).
  { intros t. unfold pageRequest. by destruct (decide (t = "")). }
  revert token w. induction n as [|n IH]; intros token w; simpl; [constructor|].
  destruct (client_Do w (pageRequest domain token)) as [w' res].
  destruct (handle res) as [err|m|records newToken]; simpl;
    try (by repeat constructor; apply Hone).
  destruct (decide (newToken = "")); simpl; [by repeat constructor; apply Hone|].
  constructor; [apply Hone | apply IH].
Qed.

(** X3: the first request of a scan asks the search path for the domain
    with its subdomains; every later request asks the page path with, as
    its one parameter, the token of the response before it, a page whose
    token (the string at [0][3][1] of its decoded body) is not empty; the
    responses are what the world answered to the requests, in turn; all
    requests are GET requests to the one host over https with the fixed
    headers. *)
Theorem scan_requests (maxPages : Z) (domain : string) (w : World) :
  (∀ r, requests (scan maxPages domain w) !! 0%nat = Some r →
        Path r = "/transparencyreport/api/v3/httpsreport/ct/certsearch"
        ∧ Query r = [("domain", domain); ("include_subdomains", "true")])
  ∧ (∀ i r, requests (scan maxPages domain w) !! S i = Some r →
            ∃ res entries t,
              responses (scan maxPages domain w) !! i = Some res
              ∧ Page res entries t
              ∧ t ≠ ""
              ∧ tokens (scan maxPages domain w) !! i = Some t
              ∧ Path r = "/transparencyreport/api/v3/httpsreport/ct/certsearch/page"
              ∧ Query r = [("p", t)])
  ∧ replay (requests (scan maxPages domain w)) w
    = (after (scan maxPages domain w), responses (scan maxPages domain w))
  ∧ length (responses (scan maxPages domain w))
    = length (requests (scan maxPages domain w))
  ∧ Forall (λ r, Method r = "GET" ∧ Scheme r = "https"
                 ∧ Host r = "transparencyreport.google.com"
                 ∧ Header r = googleHeaders)
           (requests (scan maxPages domain w)).
Proof.
  unfold scan.
  destruct (pages_chain (Z.to_nat maxPages) domain "" w) as [Hfirst _].
  split; [|split; [|split; [|split; [|apply pages_fixed_fields]]]].
  - intros r Hr. by rewrite (Hfirst r Hr).
  - intros i r Hr.
    destruct (pages_follow _ _ _ _ _ _ Hr) as (res & entries & t & ? & ? & Hne & ? & ->).
    exists res, entries, t. repeat (split; [done|]).
    unfold pageRequest. by destruct (decide (t = "")).
  - apply pages_replay.
  - apply pages_requests.
Qed.

(** X4: a scan meets the world through its requests only, one after the
    other: the world it leaves and the responses it got are those of
    sending its requests in turn. *)
Theorem scan_replay (maxPages : Z) (domain : string) (w : World) :
  replay (requests (scan maxPages domain w)) w
  = (after (scan maxPages domain w), responses (scan maxPages domain w)).
Proof.
  unfold scan. generalize (Z.to_nat maxPages) as n, "" as token.
  intros n. revert w. induction n as [|n IH]; intros w token; simpl; [done|].
  destruct (client_Do w (pageRequest domain token)) as [w' res] eqn:Hdo.
  destruct (handle res) as [err|m|records newToken]; simpl;
    try (by rewrite Hdo).
  destruct (decide (newToken = "")); simpl; rewrite Hdo; [done|].
  by rewrite IH.
Qed.

Lemma pages_step (n : nat) (domain token : string) (w : World) :
  pages (S n) domain token w
  = let '(w', res) := client_Do w (pageRequest domain token) in
    match handle res with
    | PageError err =>
        mkScanRun [pageRequest domain token] [res] [] [] (Return (Some err)) w'
    | PagePanic m =>
        mkScanRun [pageRequest domain token] [res] [] [] (Panic m) w'
    | PageOK records newToken =>
        if decide (newToken = "")
        then mkScanRun [pageRequest domain token] [res] [newToken]
                       (map (markFrom domain) records) (Return None) w'
        else
          let run := pages n domain newToken w' in
          mkScanRun (pageRequest domain token :: requests run)
                    (res :: responses run) (newToken :: tokens run)
                    (map (markFrom domain) records ++ sent run)
                    (ret run) (after run)
    end.
Proof. reflexivity. Qed.

(** One more iteration allowed: the run is carried on, or it had ended by
    itself and is the same. *)
Lemma pages_S (n : nat) (domain token : string) (w : World) :
  requests (pages n domain token w) `prefix_of` requests (pages (S n) domain token w)
  ∧ responses (pages n domain token w) `prefix_of` responses (pages (S n) domain token w)
  ∧ tokens (pages n domain token w) `prefix_of` tokens (pages (S n) domain token w)
  ∧ sent (pages n domain token w) `prefix_of` sent (pages (S n) domain token w)
  ∧ ((length (requests (pages n domain token w)) < n)%nat →
     pages (S n) domain token w = pages n domain token w).
Proof.
  revert token w. induction n as [|n IH]; intros token w.
  { simpl. repeat split; try apply prefix_nil. lia. }
  rewrite (pages_step (S n)), (pages_step n).
  destruct (client_Do w (pageRequest domain token)) as [w' res].
  destruct (handle res) as [err|m|records newToken]; [done..|].
  destruct (decide (newToken = "")); [done|].
  destruct (IH newToken w') as (Hreq & Hres & Htok & Hsent & Hsame).
  cbn [requests responses tokens sent].
  split; [by apply prefix_cons|]. split; [by apply prefix_cons|].
  split; [by apply prefix_cons|]. split; [by apply prefix_app|].
  intros Hlen. cbn [length] in Hlen. rewrite Hsame by lia. done.
Qed.

Lemma pages_le (n m : nat) (domain token : string) (w : World) :
  (n ≤ m)%nat →
  requests (pages n domain token w) `prefix_of` requests (pages m domain token w)
  ∧ responses (pages n domain token w) `prefix_of` responses (pages m domain token w)
  ∧ tokens (pages n domain token w) `prefix_of` tokens (pages m domain token w)
  ∧ sent (pages n domain token w) `prefix_of` sent (pages m domain token w)
  ∧ ((length (requests (pages n domain token w)) < n)%nat →
     pages m domain token w = pages n domain token w).
Proof.
  induction 1 as [|m Hle IH].
  { by repeat split. }
  destruct IH as (Hreq & Hres & Htok & Hsent & Hsame).
  destruct (pages_S m domain token w) as (Hreq' & Hres' & Htok' & Hsent' & Hsame').
  split; [by etrans|]. split; [by etrans|]. split; [by etrans|].
  split; [by etrans|].
  intros Hlen. rewrite <- (Hsame Hlen). apply Hsame'.
  rewrite (Hsame Hlen). lia.
Qed.

(** X5: a higher page limit only lets the scan go on: with a limit that is
    not lower, the requests, responses, tokens and records of the scan
    start with those of the scan under the lower limit, and the two scans
    are the same when the lower limit was not reached. *)
Theorem scan_limit_monotone (maxPages maxPages' : Z) (domain : string)
    (w : World) :
  maxPages ≤ maxPages' →
  requests (scan maxPages domain w) `prefix_of` requests (scan maxPages' domain w)
  ∧ responses (scan maxPages domain w) `prefix_of` responses (scan maxPages' domain w)
  ∧ tokens (scan maxPages domain w) `prefix_of` tokens (scan maxPages' domain w)
  ∧ sent (scan maxPages domain w) `prefix_of` sent (scan maxPages' domain w)
  ∧ (Z.of_nat (length (requests (scan maxPages domain w))) < maxPages →
     scan maxPages' domain w = scan maxPages domain w).
Proof.
  intros Hle. unfold scan.
  destruct (pages_le (Z.to_nat maxPages) (Z.to_nat maxPages') domain "" w)
    as (Hreq & Hres & Htok & Hsent & Hsame); [lia|].
  repeat split; try done. intros Hlen. apply Hsame. lia.
Qed.

(** The records sent are those of the entries of the pages among the
    responses, in order. *)
Lemma pages_sent_entries (n : nat) (domain token : string) (w : World) :
  ∃ pageEntries : list (list Json),
    Forall2 (λ res entries,
               (∃ t, Page res entries t) ∨ (Failure res ∧ entries = []))
            (responses (pages n domain token w)) pageEntries
    ∧ sent (pages n domain token w)
      = map (λ entry, markFrom domain (entryRecord entry)) (concat pageEntries).
Proof.
  revert token w. induction n as [|n IH]; intros token w; simpl.
  { exists []. split; [constructor|done]. }
  destruct (client_Do w (pageRequest domain token)) as [w' res].
  destruct (handle res) as [err|m|records newToken] eqn:Hres; simpl.
  - exists [[]]. split; [|done]. constructor; [|constructor]. right.
    split; [|done]. apply handle_error_iff. eauto.
  - by apply handle_no_panic in Hres.
  - apply handle_page in Hres as (entries & HP & ->).
    destruct (decide (newToken = "")); simpl.
    + exists [entries]. split; [constructor; [eauto|constructor]|].
      simpl. by rewrite app_nil_r, <- list_fmap_compose.
    + destruct (IH newToken w') as (pageEntries & Hall & ->).
      exists (entries :: pageEntries). split; [constructor; eauto|].
      simpl. by rewrite List.map_app, <- list_fmap_compose.
Qed.

(** X6: the records a scan sends are, in order, those of the entries of
    the pages among its responses, one record per entry.  Every record sent
    is built from one entry of a page the scan received: its name and
    issuer are the strings at indices 1 and 2 of the entry, its dates the
    integers at 3 and 4 (each with its default), and it carries the domain
    of the scan, no address and no error. *)
Theorem scan_sent (maxPages : Z) (domain : string) (w : World) :
  (∃ pageEntries : list (list Json),
     Forall2 (λ res entries,
                (∃ t, Page res entries t) ∨ (Failure res ∧ entries = []))
             (responses (scan maxPages domain w)) pageEntries
     ∧ sent (scan maxPages domain w)
       = map (λ entry,
                mkRecord domain
                         (MustString (GetIndex entry 1))
                         (MustString (GetIndex entry 2))
                         (MustInt64 (GetIndex entry 3))
                         (MustInt64 (GetIndex entry 4))
                         [] None)
             (concat pageEntries))
  ∧ Forall (λ record,
              (∃ res entries t entry,
                 res ∈ responses (scan maxPages domain w)
                 ∧ Page res entries t
                 ∧ entry ∈ entries
                 ∧ record = markFrom domain (entryRecord entry)
                 ∧ Name record = MustString (GetIndex entry 1)
                 ∧ Issuer record = MustString (GetIndex entry 2)
                 ∧ NotBeforeTime record = MustInt64 (GetIndex entry 3)
                 ∧ NotAfterTime record = MustInt64 (GetIndex entry 4))
              ∧ From_ record = domain
              ∧ Addrs record = [] ∧ Err record = None)
           (sent (scan maxPages domain w))
  ∧ replay (requests (scan maxPages domain w)) w
    = (after (scan maxPages domain w), responses (scan maxPages domain w)).
Proof.
  unfold scan.
  destruct (pages_sent_entries (Z.to_nat maxPages) domain "" w)
    as (pageEntries & Hall & Hsent).
  split; [by exists pageEntries|]. split; [|apply pages_replay].
  rewrite Hsent. apply Forall_forall.
  intros record (entry & -> & Hentry)%list_elem_of_fmap.
  apply elem_of_concat in Hentry as (entries & Hentry & Hentries).
  apply list_elem_of_lookup in Hentries as [i Hi].
  destruct (Forall2_lookup_r _ _ _ _ _ Hall Hi) as (res & Hres & [[t HP]|[_ ->]]).
  - split; [|done]. exists res, entries, t, entry.
    split; [by eapply list_elem_of_lookup_2|]. done.
  - by apply elem_of_nil in Hentry.
Qed.

End ScanMore.

(** ** More on [ScanStream] *)

Section StreamMore.

Context {env : Env}.
Variable maxPages : Z.

(** X7: a worker that has gone through the domains [l1] without error goes
    on with [l2] from the set and the world it has reached, and its calls
    are those for [l1] followed by those for [l2]; a worker that failed on
    [l1] has done the same as without [l2], which is left unread. *)
Theorem ScanStream_app (l1 l2 : list string) (scanned : gset string) (w : World) :
  ScanStream maxPages (l1 ++ l2) scanned w
  = let r1 := ScanStream maxPages l1 scanned w in
    match stream_ret r1 with
    | Return None =>
        let r2 := ScanStream maxPages l2 (scanned_after r1) (stream_after r1) in
        mkStreamRun (calls r1 ++ calls r2) (unread r2) (scanned_after r2)
                    (stream_ret r2) (stream_after r2)
    | _ =>
        mkStreamRun (calls r1) (unread r1 ++ l2) (scanned_after r1)
                    (stream_ret r1) (stream_after r1)
    end.
Proof.
  revert scanned w. induction l1 as [|d l1 IH]; intros scanned w.
  { cbn. by destruct (ScanStream maxPages l2 scanned w). }
  cbn [app ScanStream].
  destruct (decide (normalizeDomain d ∈ scanned)); [apply IH|].
  destruct (ret (scan maxPages (normalizeDomain d) w)) as [[err|]|m] eqn:Hret;
    [done| |done].
  rewrite IH. cbn zeta. cbn [stream_ret calls unread scanned_after stream_after].
  by destruct (stream_ret (ScanStream maxPages l1 ({[normalizeDomain d]} ∪ scanned)
                 (after (scan maxPages (normalizeDomain d) w)))) as [[?|]|?].
Qed.

End StreamMore.

(** ** More on [parseCTData] *)

Lemma digits_nonneg (s : string) (acc z : Z) :
  0 ≤ acc → strconv.digits s acc = Some z → 0 ≤ z.
Proof.
  revert acc. induction s as [|c s IH]; intros acc Hacc; simpl.
  - by intros [= <-].
  - destruct (strconv.isDigit c) eqn:Hc; [|done].
    apply IH. unfold strconv.isDigit in Hc.
    apply andb_prop in Hc as [H1 _]. apply Nat.leb_le in H1. lia.
Qed.

Lemma ParseUint_nonneg (s : string) (un : Z) :
  strconv.ParseUint s = Some un → 0 ≤ un.
Proof.
  unfold strconv.ParseUint. destruct s; [done|].
  by apply digits_nonneg.
Qed.

Lemma ParseInt_range (s : string) (z : Z) :
  strconv.ParseInt s = Some z → - 2 ^ 63 ≤ z < 2 ^ 63.
Proof.
  unfold strconv.ParseInt. destruct s as [|c rest]; [done|]. cbv zeta.
  destruct (strconv.ParseUint _) as [un|] eqn:Hun; [|done].
  apply ParseUint_nonneg in Hun.
  destruct (bool_decide (c = "-"%char)); simpl.
  - destruct (2 ^ 63 <? un) eqn:Hcut; [done|].
    intros [= <-]. apply Z.ltb_ge in Hcut. lia.
  - destruct (2 ^ 63 <=? un) eqn:Hcut; [done|].
    intros [= <-]. apply Z.leb_gt in Hcut. lia.
Qed.

Lemma MustInt64_range (j : Json) : - 2 ^ 63 ≤ MustInt64 j < 2 ^ 63.
Proof.
  unfold MustInt64. destruct (Int64 j) as [i|] eqn:Hi; [|lia].
  destruct j; try discriminate. by apply ParseInt_range in Hi.
Qed.

(** The decimal literal of an integer, as [strconv.ParseInt] reads it. *)
Lemma pretty_N_char_digit (x : N) :
  (x < 10)%N →
  strconv.isDigit (pretty_N_char x) = true
  ∧ Z.of_nat (nat_of_ascii (pretty_N_char x)) - 48 = Z.of_N x.
Proof.
  intros Hx.
  assert (x ∈ [0;1;2;3;4;5;6;7;8;9]%N) as Hin.
  { assert (x = 0 ∨ x = 1 ∨ x = 2 ∨ x = 3 ∨ x = 4 ∨ x = 5 ∨ x = 6 ∨ x = 7
            ∨ x = 8 ∨ x = 9)%N by lia.
    set_solver. }
  repeat (apply elem_of_cons in Hin as [->|Hin]; [by vm_compute|]).
  by apply elem_of_nil in Hin.
Qed.

Lemma digits_pretty_N_go (x : N) (s : string) :
  strconv.digits (pretty_N_go x s) 0 = strconv.digits s (Z.of_N x).
Proof.
  revert s. induction (N.lt_wf_0 x) as [x _ IH]; intros s.
  destruct (decide (0 < x)%N) as [Hx|Hx].
  - rewrite pretty_N_go_step by done.
    rewrite IH by (apply N.div_lt; lia).
    destruct (pretty_N_char_digit (x `mod` 10)%N) as [Hd Hv].
    { apply N.mod_lt. lia. }
    cbn [strconv.digits]. rewrite Hd, Hv. f_equal.
    rewrite N2Z.inj_div, N2Z.inj_mod. simpl Z.of_N.
    pose proof (Z.div_mod (Z.of_N x) 10). lia.
  - assert (x = 0%N) as -> by lia. by rewrite pretty_N_go_0.
Qed.

Lemma digits_first (c : ascii) (s : string) (acc z : Z) :
  strconv.digits (String c s) acc = Some z → strconv.isDigit c = true.
Proof. simpl. by destruct (strconv.isDigit c). Qed.

Lemma ParseUint_pretty (p : positive) :
  ∃ c s, pretty (Npos p) = String c s
         ∧ strconv.isDigit c = true
         ∧ strconv.ParseUint (pretty (Npos p)) = Some (Z.pos p).
Proof.
  pose proof (digits_pretty_N_go (Npos p) "") as Hd. simpl in Hd.
  unfold pretty, pretty_N. destruct (decide _) as [|_]; [done|].
  destruct (pretty_N_go (N.pos p) "") as [|c s]; [done|].
  exists c, s. split; [done|]. split; [by eapply digits_first | done].
Qed.

Lemma ParseInt_pretty (z : Z) :
  strconv.ParseInt (pretty z)
  = if decide (- 2 ^ 63 ≤ z < 2 ^ 63) then Some z else None.
Proof.
  destruct z as [|p|p].
  - by vm_compute.
  - destruct (ParseUint_pretty p) as (c & s & Hs & Hc & Hu).
    change (pretty (Z.pos p)) with (pretty (N.pos p)).
    unfold strconv.ParseInt. rewrite Hs. rewrite Hs in Hu.
    assert (bool_decide (c = "-"%char) = false) as ->.
    { apply bool_decide_eq_false. by intros ->. }
    assert (bool_decide (c = "+"%char) = false) as ->.
    { apply bool_decide_eq_false. by intros ->. }
    cbn [orb negb andb]. rewrite Hu.
    destruct (decide _) as [Hr|Hr].
    + by rewrite (proj2 (Z.leb_gt _ _)) by lia.
    + by rewrite (proj2 (Z.leb_le _ _)) by lia.
  - destruct (ParseUint_pretty p) as (c & s & Hs & Hc & Hu).
    change (pretty (Z.neg p)) with ("-" +:+ pretty (N.pos p)).
    change ("-" +:+ pretty (N.pos p)) with (String "-" (pretty (N.pos p))).
    unfold strconv.ParseInt.
    rewrite (bool_decide_eq_true_2 ("-"%char = "-"%char)) by done.
    rewrite orb_true_r. rewrite Hu. cbn [negb andb].
    destruct (decide _) as [Hr|Hr].
    + rewrite (proj2 (Z.ltb_ge _ _)) by lia. done.
    + rewrite (proj2 (Z.ltb_lt _ _)) by lia. done.
Qed.

Lemma digits_all (s : string) (acc z : Z) (c : ascii) :
  strconv.digits s acc = Some z → c ∈ list_ascii_of_string s →
  strconv.isDigit c = true.
Proof.
  revert acc. induction s as [|c' s IH]; intros acc; simpl.
  - intros _ H. by apply elem_of_nil in H.
  - destruct (strconv.isDigit c') eqn:Hc'; [|done].
    intros Hd [->|Hin]%elem_of_cons; [done|]. by eapply IH.
Qed.

Lemma ParseInt_chars (lit : string) (z : Z) (c : ascii) :
  strconv.ParseInt lit = Some z → c ∈ list_ascii_of_string lit →
  strconv.isDigit c = true ∨ c = "+"%char ∨ c = "-"%char.
Proof.
  unfold strconv.ParseInt. destruct lit as [|c0 rest]; [done|]. cbv zeta.
  destruct (strconv.ParseUint _) as [un|] eqn:Hun; [|done]. intros _.
  unfold strconv.ParseUint in Hun.
  destruct (bool_decide (c0 = "+"%char)) eqn:Hplus; simpl in Hun.
  - apply bool_decide_eq_true in Hplus as ->.
    intros [->|Hin]%elem_of_cons; [by right; left|]. left.
    destruct rest as [|c1 rest]; [done|].
      exact (digits_all (String c1 rest) 0 un c Hun Hin).
  - destruct (bool_decide (c0 = "-"%char)) eqn:Hminus; simpl in Hun.
    + apply bool_decide_eq_true in Hminus as ->.
      intros [->|Hin]%elem_of_cons; [by right; right|]. left.
      destruct rest as [|c1 rest]; [done|].
      exact (digits_all (String c1 rest) 0 un c Hun Hin).
    + intros Hin. left. exact (digits_all (String c0 rest) 0 un c Hun Hin).
Qed.

Section ParseMore.

Variable NewJson : list byte → Json + error.

(** X8: when [parseCTData] returns an error it returns no record and no
    token with it, and the error is that of the decoder, wrapped, or the
    one for a missing array; when it returns none, it returns one record
    per element of the array at [0][1], in order, whatever the elements
    are. *)
Theorem parseCTData_result (b : list byte) :
  match parseCTData NewJson b with
  | (records, token, Some e) =>
      records = [] ∧ token = ""
      ∧ ((∃ err, NewJson b = inr err ∧ e = wrap "parsing JSON" err)
         ∨ (∃ j, NewJson b = inl j
                 ∧ Array (GetIndex (GetIndex j 0) 1) = None
                 ∧ e = "records not an array"))
  | (records, token, None) =>
      ∃ j entries,
        NewJson b = inl j
        ∧ Array (GetIndex (GetIndex j 0) 1) = Some entries
        ∧ records = map entryRecord entries
  end.
Proof.
  destruct (parseCTData NewJson b) as [[records token] [e|]] eqn:Hp.
  - unfold parseCTData in Hp. destruct (NewJson b) as [j|err].
    + destruct (Array (GetIndex (GetIndex j 0) 1)) eqn:Harr; [done|].
      injection Hp as <- <- <-. repeat split; try done. right. by exists j.
    + injection Hp as <- <- <-. repeat split; try done. left. by exists err.
  - destruct (parseCTData_ok _ _ _ _ Hp) as (j & entries & ? & ? & ? & _).
    by exists j, entries.
Qed.

(** X9: the two dates of every record [parseCTData] returns are what
    [MustInt64] reads at indices 3 and 4 of its entry, and fit in an
    [int64].  The decimal literal of an integer is read as that integer
    when it fits, and as 0 when it does not; a literal with a character
    that is neither a digit nor a sign (the point of a fraction, the [e] of
    an exponent) is read as 0, and so is a value that is not a number. *)
Theorem parseCTData_dates (b : list byte) :
  Forall (λ record, - 2 ^ 63 ≤ NotBeforeTime record < 2 ^ 63
                    ∧ - 2 ^ 63 ≤ NotAfterTime record < 2 ^ 63)
         (fst (fst (parseCTData NewJson b)))
  ∧ (∀ j entries,
       NewJson b = inl j →
       Array (GetIndex (GetIndex j 0) 1) = Some entries →
       map NotBeforeTime (fst (fst (parseCTData NewJson b)))
       = map (λ entry, MustInt64 (GetIndex entry 3)) entries
       ∧ map NotAfterTime (fst (fst (parseCTData NewJson b)))
         = map (λ entry, MustInt64 (GetIndex entry 4)) entries)
  ∧ (∀ z : Z,
       MustInt64 (JNumber (pretty z))
       = if decide (- 2 ^ 63 ≤ z < 2 ^ 63) then z else 0)
  ∧ (∀ lit c,
       c ∈ list_ascii_of_string lit →
       strconv.isDigit c = false → c ≠ "+"%char → c ≠ "-"%char →
       MustInt64 (JNumber lit) = 0)
  ∧ (∀ lit c,
       c ∈ list_ascii_of_string lit →
       c = "."%char ∨ c = "e"%char ∨ c = "E"%char →
       MustInt64 (JNumber lit) = 0)
  ∧ (∀ j, (∀ lit, j ≠ JNumber lit) → MustInt64 j = 0)
  ∧ MustInt64 (JNumber "9223372036854775808") = 0
  ∧ MustInt64 (JNumber "1.5") = 0
  ∧ MustInt64 (JNumber "-9223372036854775808") = - 2 ^ 63.
Proof.
  assert (Hchar : ∀ lit c,
            c ∈ list_ascii_of_string lit →
            strconv.isDigit c = false → c ≠ "+"%char → c ≠ "-"%char →
            MustInt64 (JNumber lit) = 0).
  { intros lit c Hin Hd Hplus Hminus. unfold MustInt64, Int64.
    destruct (strconv.ParseInt lit) as [z|] eqn:Hz; [|done].
    destruct (ParseInt_chars lit z c Hz Hin) as [?|[?|?]]; congruence. }
  split; [|split; [|split; [|split; [|split; [|split; [|by vm_compute]]]]]].
  - unfold parseCTData. destruct (NewJson b) as [j|err]; [|constructor].
    destruct (Array (GetIndex (GetIndex j 0) 1)); [|constructor].
    simpl. apply Forall_forall. intros r (i & -> & _)%list_elem_of_fmap.
    split; apply MustInt64_range.
  - intros j entries Hj Harr. unfold parseCTData. rewrite Hj, Harr. simpl.
    rewrite (Array_Some _ _ Harr), entries_by_index.
    by rewrite <- !list_fmap_compose.
  - intros z. unfold MustInt64, Int64. rewrite ParseInt_pretty.
    by destruct (decide _).
  - exact Hchar.
  - intros lit c Hin [ -> | [ -> | -> ] ]; by apply (Hchar lit _ Hin).
  - intros j Hj. destruct j; try done. by destruct (Hj lit).
Qed.

End ParseMore.

(** ** More on [Resolve] *)

Section ResolveMore.

Context {env : Env}.

(** X10: a worker that has gone through the records [l1] goes on with
    [l2] from the set and the world it has reached: its lookups and the
    records it forwards are those for [l1] followed by those for [l2]; the
    set it leaves holds the names it was given and those it started
    with. *)
Theorem Resolve_app (l1 l2 : list CTRecord) (resolved : gset string) (w : World) :
  Resolve (l1 ++ l2) resolved w
  = (let r1 := Resolve l1 resolved w in
     let r2 := Resolve l2 (resolved_after r1) (resolve_after r1) in
     mkResolveRun (lookups r1 ++ lookups r2) (forwarded r1 ++ forwarded r2)
                  (resolved_after r2) (resolve_ret r2) (resolve_after r2))
  ∧ resolved_after (Resolve l1 resolved w) = list_to_set (map Name l1) ∪ resolved.
Proof.
  split.
  - revert resolved w. induction l1 as [|record l1 IH]; intros resolved w.
    { cbn. by destruct (Resolve l2 resolved w). }
    cbn [app Resolve].
    destruct (decide (Name record ∈ resolved)); [apply IH|].
    destruct (wontResolve (Name record)).
    + by rewrite IH.
    + destruct (LookupHost w (Name record)) as [w' [addrs err]].
      by rewrite IH.
  - revert resolved w. induction l1 as [|record l1 IH]; intros resolved w.
    { cbn. set_solver. }
    cbn [Resolve map].
    destruct (decide (Name record ∈ resolved)); [rewrite IH; set_solver|].
    destruct (wontResolve (Name record)).
    + cbn [resolved_after]. rewrite IH. set_solver.
    + destruct (LookupHost w (Name record)) as [w' [addrs err]].
      cbn [resolved_after]. rewrite IH. set_solver.
Qed.

Lemma Resolve_forwarded_entries (in_ : list CTRecord) (resolved : gset string)
    (w : World) :
  Forall (λ r', (∃ r, r ∈ in_ ∧ sameEntry r r')
                ∧ (wontResolve (Name r') = true → r' ∈ in_))
         (forwarded (Resolve in_ resolved w)).
Proof.
  revert resolved w. induction in_ as [|record rest IH]; intros resolved w;
    cbn [Resolve]; [constructor|].
  assert (Hrest : ∀ S' w',
            Forall (λ r', (∃ r, r ∈ record :: rest ∧ sameEntry r r')
                          ∧ (wontResolve (Name r') = true → r' ∈ record :: rest))
                   (forwarded (Resolve rest S' w'))).
  { intros S' w'. eapply Forall_impl; [apply IH|]. simpl.
    intros r' [(r & Hr & Hsame) Hwild]. split.
    - exists r. split; [by right|done].
    - intros Hw. right. by apply Hwild. }
  destruct (decide (Name record ∈ resolved)); [apply Hrest|].
  destruct (wontResolve (Name record)) eqn:Hwont.
  - cbn [forwarded]. constructor; [|apply Hrest]. split.
    + exists record. split; [by left|]. by repeat split.
    + intros _. by left.
  - destruct (LookupHost w (Name record)) as [w' [addrs err]].
    cbn [forwarded]. constructor; [|apply Hrest]. split.
    + exists record. split; [by left|]. by repeat split.
    + simpl. congruence.
Qed.

(** X11: every record a worker forwards is a record it received with, at
    most, its addresses and error set: a record with a wildcard or quoted
    name is forwarded as it was received, and the names forwarded come in
    the order of the names received. *)
Theorem Resolve_forwarded (in_ : list CTRecord) (resolved : gset string)
    (w : World) :
  Forall (λ r', (∃ r, r ∈ in_ ∧ sameEntry r r')
                ∧ (wontResolve (Name r') = true → r' ∈ in_))
         (forwarded (Resolve in_ resolved w))
  ∧ map Name (forwarded (Resolve in_ resolved w)) `sublist_of` map Name in_.
Proof.
  split; [apply Resolve_forwarded_entries|].
  revert resolved w. induction in_ as [|record rest IH]; intros resolved w;
    cbn [Resolve map]; [constructor|].
  destruct (decide (Name record ∈ resolved)); [by constructor|].
  destruct (wontResolve (Name record)).
  - cbn [forwarded map]. by constructor.
  - destruct (LookupHost w (Name record)) as [w' [addrs err]].
    cbn [forwarded map]. by constructor.
Qed.

(** X12: a worker meets the world through its lookups only, one after the
    other: the world it leaves is that of looking its names up in turn, and
    the addresses and errors of the records it forwards, wildcards and
    quoted names apart, are what the lookups gave, in order. *)
Theorem Resolve_lookups (in_ : list CTRecord) (resolved : gset string)
    (w : World) :
  lookupAll (lookups (Resolve in_ resolved w)) w
  = (resolve_after (Resolve in_ resolved w),
     map (λ r, (Addrs r, Err r))
         (List.filter (λ r, negb (wontResolve (Name r)))
                      (forwarded (Resolve in_ resolved w)))).
Proof.
  revert resolved w. induction in_ as [|record rest IH]; intros resolved w;
    cbn [Resolve]; [done|].
  destruct (decide (Name record ∈ resolved)); [apply IH|].
  destruct (wontResolve (Name record)) eqn:Hwont.
  - cbn [lookups forwarded resolve_after List.filter]. rewrite Hwont. apply IH.
  - destruct (LookupHost w (Name record)) as [w' [addrs err]] eqn:Hlook.
    cbn [lookups forwarded resolve_after List.filter lookupAll].
    rewrite Hlook, IH. simpl. by rewrite Hwont.
Qed.

End ResolveMore.

(** ** More on the sink *)

(** X13: every row written has four fields: the domain and the name of
    one of the records, then an address and an empty field, or an empty
    field and an error message. *)
Theorem sink_rows_shape (out : list CTRecord) :
  Forall (λ row, ∃ record third fourth,
            record ∈ out
            ∧ row = [From_ record; Name record; third; fourth]
            ∧ (third = "" ∨ fourth = "")
            ∧ (Err record = Some fourth ∧ third = ""
               ∨ Err record = None ∧ third ∈ Addrs record ∧ fourth = ""))
         (sink out).
Proof.
  unfold sink. rewrite (sink_from [] out), app_nil_l.
  apply Forall_forall. intros row Hrow.
  apply elem_of_concat in Hrow as (rows & Hrow & Hrows).
  apply list_elem_of_fmap in Hrows as (record & -> & Hrecord).
  unfold rowsOf in Hrow. destruct (Err record) as [err|] eqn:Herr.
  - apply list_elem_of_singleton in Hrow as ->.
    exists record, "", err. repeat split; try done; by left.
  - apply list_elem_of_fmap in Hrow as (addr & -> & Haddr).
    exists record, addr, "". repeat split; try done; by right.
Qed.

(** X14: the rows of the records come in the order of the records: the
    rows for [out] followed by [more] are those for [out] followed by those
    for [more], and writing a record leaves the rows written before it as
    they are. *)
Theorem sink_app (out more : list CTRecord) :
  sink (out ++ more) = (sink out ++ sink more)%list
  ∧ (∀ (w : Writer) (record : CTRecord), w `prefix_of` sinkRecord w record).
Proof.
  split.
  - unfold sink. rewrite !sink_from, !app_nil_l.
    by rewrite List.map_app, concat_app.
  - intros w record. rewrite sinkRecord_rows. by apply prefix_app_r.
Qed.

(** ** [getGoogleCookie] and [setGoogleHeaders] *)

Section CookieProofs.

Context {env : Env}.

(** X15: without a cookie jar [getGoogleCookie] fails before sending
    anything; with one it sends its one request and returns nil exactly
    when a response came back with a status from 200 to 299, whatever the
    body. *)
Theorem getGoogleCookie_result (w : World) :
  getGoogleCookie false w = (w, Some "no cookie jar set")
  ∧ replay [cookieRequest] w
    = (fst (getGoogleCookie true w), [snd (client_Do w cookieRequest)])
  ∧ (snd (getGoogleCookie true w) = None
     ↔ ∃ resp, snd (client_Do w cookieRequest) = inl resp
               ∧ 200 ≤ StatusCode resp ≤ 299).
Proof.
  split; [done|]. unfold getGoogleCookie, replay; simpl.
  destruct (client_Do w cookieRequest) as [w' [resp|err]]; simpl.
  - split; [done|]. destruct (decide _) as [Hst|Hst].
    + split; [done|]. intros (resp' & [= <-] & ?). lia.
    + split; [|done]. intros _. exists resp. split; [done|]. lia.
  - split; [done|]. split; [done|]. by intros (resp & ? & _).
Qed.

End CookieProofs.

Section HeaderProofs.

Variable canonical : string → string.

Local Abbreviation entry := (λ hv : string * string, (canonical (fst hv), [snd hv])).

Lemma entry_keys (order : list (string * string)) :
  (map entry order).*1 = map canonical (map fst order).
Proof. induction order as [|hv order IH]; [done|]. cbn. by f_equal. Qed.

Lemma setGoogleHeaders_map (order : list (string * string))
    (header : gmap string (list string)) :
  NoDup (map canonical (map fst order)) →
  setGoogleHeaders canonical order header
  = list_to_map (map entry order) ∪ header.
Proof.
  rewrite <- entry_keys. unfold setGoogleHeaders.
  revert header. induction order as [|[h v] order IH]; intros header Hnd.
  - cbn. by rewrite (left_id_L ∅ (∪)).
  - cbn [map fmap list_fmap] in Hnd. apply NoDup_cons in Hnd as [Hh Hnd].
    cbn [fold_left map]. rewrite (IH _ Hnd). rewrite list_to_map_cons.
    unfold Header_Set. cbn [fst snd].
    rewrite <- insert_union_l. symmetry. apply insert_union_r.
    by apply not_elem_of_list_to_map_1.
Qed.

(** X16: the headers [setGoogleHeaders] leaves on a request do not depend
    on the order in which Go goes through the map: each of the ten headers
    has its one value, and every other header of the request is as it
    was. *)
Theorem setGoogleHeaders_order (order : list (string * string))
    (header : gmap string (list string)) :
  NoDup (map canonical (map fst googleHeaders)) →
  order ≡ₚ googleHeaders →
  setGoogleHeaders canonical order header
  = setGoogleHeaders canonical googleHeaders header
  ∧ (∀ h v, (h, v) ∈ googleHeaders →
            setGoogleHeaders canonical order header !! canonical h = Some [v])
  ∧ (∀ k, k ∉ map canonical (map fst googleHeaders) →
          setGoogleHeaders canonical order header !! k = header !! k).
Proof.
  intros Hnd Hperm.
  assert (Hnd' : NoDup (map canonical (map fst order))) by by rewrite Hperm.
  assert (Hkeys : NoDup (map entry googleHeaders).*1) by by rewrite entry_keys.
  assert (Heq : setGoogleHeaders canonical order header
                = list_to_map (map entry googleHeaders) ∪ header).
  { rewrite (setGoogleHeaders_map _ _ Hnd'). f_equal.
    symmetry. apply list_to_map_proper; [done|]. by rewrite Hperm. }
  split; [by rewrite Heq, setGoogleHeaders_map|]. split.
  - intros h v Hin. rewrite Heq. apply lookup_union_Some_l.
    apply elem_of_list_to_map_1; [done|].
    apply list_elem_of_fmap. by exists (h, v).
  - intros k Hk. rewrite Heq, lookup_union_r; [done|].
    apply not_elem_of_list_to_map_1. by rewrite entry_keys.
Qed.

End HeaderProofs.

(** ** The order of the deliveries *)

Lemma claimed_set (keys : list string) (seen : gset string) :
  list_to_set (claimed keys seen) =@{gset string} list_to_set keys ∖ seen.
Proof.
  revert seen. induction keys as [|k keys IH]; intros seen; simpl.
  - set_solver.
  - destruct (decide (k ∈ seen)).
    + rewrite IH. set_solver.
    + simpl. rewrite IH. apply set_eq. intros x.
      destruct (decide (x = k)); set_solver.
Qed.

Lemma claimed_perm (keys keys' : list string) (seen : gset string) :
  keys ≡ₚ keys' →
  list_to_set (claimed keys seen) =@{gset string} list_to_set (claimed keys' seen)
  ∧ length (claimed keys seen) = length (claimed keys' seen).
Proof.
  intros Hperm.
  assert (Hset : list_to_set (claimed keys seen)
                 =@{gset string} list_to_set (claimed keys' seen)).
  { rewrite !claimed_set. by rewrite Hperm. }
  split; [done|].
  rewrite <- (size_list_to_set (C := gset string) (claimed keys seen))
    by apply claimed_NoDup.
  rewrite <- (size_list_to_set (C := gset string) (claimed keys' seen))
    by apply claimed_NoDup.
  by rewrite Hset.
Qed.

Section OrderProofs.

Context {env : Env}.
Variable maxPages : Z.

(** X17: the domains the pool of scan workers calls [scan] for do not
    depend on the order in which the workers take the domains, nor on what
    the network answers: the same domains in another order, in another
    world, give the same set of calls, as many, each domain once. *)
Theorem scanPool_any_order (in_ in' : list string) (scanned : gset string)
    (w w' : World) :
  in_ ≡ₚ in' →
  list_to_set (map fst (scanPool maxPages in_ scanned w))
  =@{gset string} list_to_set (map fst (scanPool maxPages in' scanned w'))
  ∧ length (scanPool maxPages in_ scanned w)
    = length (scanPool maxPages in' scanned w')
  ∧ NoDup (map fst (scanPool maxPages in_ scanned w)).
Proof.
  intros Hperm.
  assert (Hp : map normalizeDomain in_ ≡ₚ map normalizeDomain in')
    by by apply fmap_Permutation.
  destruct (claimed_perm _ _ scanned Hp) as [Hset Hlen].
  rewrite <- (length_map fst (scanPool maxPages in_ scanned w)).
  rewrite <- (length_map fst (scanPool maxPages in' scanned w')).
  rewrite !scanPool_calls. split; [done|]. split; [done|].
  apply claimed_NoDup.
Qed.

(** X18: the names the resolve workers forward a record for do not depend
    on the order in which the records come, nor on what the resolver
    answers: the same records in another order give the same set of names,
    as many records; which of the records with one name is forwarded (and
    so which domain goes with the name) does depend on the order. *)
Theorem Resolve_any_order (in_ in' : list CTRecord) (resolved : gset string)
    (w w' : World) :
  in_ ≡ₚ in' →
  list_to_set (map Name (forwarded (Resolve in_ resolved w)))
  =@{gset string} list_to_set (map Name (forwarded (Resolve in' resolved w')))
  ∧ length (forwarded (Resolve in_ resolved w))
    = length (forwarded (Resolve in' resolved w'))
  ∧ list_to_set (lookups (Resolve in_ resolved w))
    =@{gset string} list_to_set (lookups (Resolve in' resolved w')).
Proof.
  intros Hperm.
  assert (Hp : map Name in_ ≡ₚ map Name in') by by apply fmap_Permutation.
  destruct (claimed_perm _ _ resolved Hp) as [Hset Hlen].
  destruct (Resolve_names in_ resolved w) as (Hfwd & Hlook & _).
  destruct (Resolve_names in' resolved w') as (Hfwd' & Hlook' & _).
  rewrite <- (length_map Name (forwarded (Resolve in_ resolved w))).
  rewrite <- (length_map Name (forwarded (Resolve in' resolved w'))).
  rewrite Hfwd, Hfwd', Hlook, Hlook'. split; [done|]. split; [done|].
  apply set_eq. intros n.
  rewrite !elem_of_list_to_set, !list_elem_of_In, !filter_In, <- !list_elem_of_In.
  rewrite <- !(elem_of_list_to_set (C := gset string)), Hset. done.
Qed.

(** X19: from the scan to the rows: every row written for the records a
    scan worker sent, after a resolve worker, has as its first field a
    domain [scan] was called for and as its second the name of a record
    that scan sent for that domain. *)
Theorem rows_from_scans (in_ : list string) (scanned resolved : gset string)
    (w w' : World) :
  let stream := ScanStream maxPages in_ scanned w in
  Forall (λ row, ∃ domain name third fourth,
            row = [domain; name; third; fourth]
            ∧ ∃ run, (domain, run) ∈ calls stream
                     ∧ ∃ record, record ∈ sent run ∧ Name record = name)
         (sink (forwarded (Resolve (streamSent stream) resolved w'))).
Proof.
  intros stream.
  pose proof (Resolve_forwarded_entries (streamSent stream) resolved w') as Hfwd.
  rewrite Forall_forall in Hfwd.
  destruct (ScanStream_calls maxPages in_ scanned w) as (_ & _ & _ & _ & Hscan & _).
  fold stream in Hscan. rewrite Forall_forall in Hscan.
  unfold sink. rewrite (sink_from []), app_nil_l.
  apply Forall_forall. intros row Hrow.
  apply elem_of_concat in Hrow as (rows & Hrow & Hrows).
  apply list_elem_of_fmap in Hrows as (r' & -> & Hr').
  destruct (Hfwd r' Hr') as [(r & Hr & HF & HN & _) _].
  unfold streamSent in Hr. apply elem_of_concat in Hr as (recs & Hr & Hrecs).
  apply list_elem_of_fmap in Hrecs as ([d run] & -> & Hcall). simpl in Hr.
  destruct (Hscan _ Hcall) as [w0 Hrun]. simpl in Hrun.
  assert (Hfrom : From_ r = d).
  { rewrite Hrun in Hr. unfold scan in Hr. by apply pages_sent in Hr as [? _]. }
  assert (Hshape : ∃ third fourth, row = [From_ r'; Name r'; third; fourth]).
  { unfold rowsOf in Hrow. destruct (Err r') as [err|].
    - apply list_elem_of_singleton in Hrow as ->. eauto.
    - apply list_elem_of_fmap in Hrow as (addr & -> & _). eauto. }
  destruct Hshape as (third & fourth & ->).
  exists d, (Name r'), third, fourth. split; [by rewrite <- HF, Hfrom|].
  exists run. split; [done|]. exists r. by split.
Qed.

End OrderProofs.

(** ** More runs on the sample input *)

Lemma no_comment_scanned_witness :
  Forall (λ line, standin.TrimSpace (standin.TrimSpace line)
                  = standin.TrimSpace line) sample.lines
  ∧ map fst (calls (ScanStream (env := sample.endless) 1
                               (feed (env := sample.endless) sample.lines) ∅ tt))
    = ["example.com"; "example.org"]
  ∧ Forall (λ c, (∃ line, line ∈ sample.lines ∧ fst c = standin.TrimSpace line)
                 ∧ fst c ≠ "" ∧ ¬ (∃ s, fst c = String "#"%char s))
           (calls (ScanStream (env := sample.endless) 1
                              (feed (env := sample.endless) sample.lines) ∅ tt)).
Proof.
  assert (Hidem : Forall (λ line, standin.TrimSpace (standin.TrimSpace line)
                                  = standin.TrimSpace line) sample.lines).
  { repeat constructor. }
  split; [exact Hidem|]. split; [by vm_compute|].
  exact (no_comment_scanned (env := sample.endless) 1 sample.lines ∅ tt Hidem).
Defined.

Lemma scan_limit_monotone_witness :
  1 ≤ 2
  ∧ length (requests (scan (env := sample.endless) 1 "example.com" tt)) = 1%nat
  ∧ length (requests (scan (env := sample.endless) 2 "example.com" tt)) = 2%nat
  ∧ requests (scan (env := sample.endless) 1 "example.com" tt)
    `prefix_of` requests (scan (env := sample.endless) 2 "example.com" tt)
  ∧ sent (scan (env := sample.endless) 1 "example.com" tt)
    `prefix_of` sent (scan (env := sample.endless) 2 "example.com" tt).
Proof.
  assert (Hle : 1 ≤ 2) by lia.
  destruct (scan_limit_monotone (env := sample.endless) 1 2 "example.com" tt Hle)
    as (Hreq & _ & _ & Hsent & _).
  split; [exact Hle|]. split; [by vm_compute|]. split; [by vm_compute|].
  split; [exact Hreq|exact Hsent].
Defined.

Lemma setGoogleHeaders_order_witness :
  NoDup (map standin.canonical (map fst googleHeaders))
  ∧ rev googleHeaders ≡ₚ googleHeaders
  ∧ setGoogleHeaders standin.canonical (rev googleHeaders) ∅
    = setGoogleHeaders standin.canonical googleHeaders ∅
  ∧ setGoogleHeaders standin.canonical (rev googleHeaders) ∅ !! "Dnt" = Some ["1"].
Proof.
  assert (Hnd : NoDup (map standin.canonical (map fst googleHeaders))).
  { apply (bool_decide_unpack _). by vm_compute. }
  assert (Hperm : rev googleHeaders ≡ₚ googleHeaders).
  { symmetry. apply Permutation_rev. }
  destruct (setGoogleHeaders_order standin.canonical (rev googleHeaders) ∅ Hnd Hperm)
    as (Heq & Hset & _).
  split; [exact Hnd|]. split; [exact Hperm|]. split; [exact Heq|].
  apply (Hset "DNT" "1"). repeat constructor.
Defined.

Lemma scanPool_any_order_witness :
  ["example.com"; "example.org"; "example.com "]
  ≡ₚ ["example.com "; "example.com"; "example.org"]
  ∧ map fst (scanPool (env := sample.endless) 1
                      ["example.com"; "example.org"; "example.com "] ∅ tt)
    = ["example.com"; "example.org"]
  ∧ length (scanPool (env := sample.endless) 1
                     ["example.com"; "example.org"; "example.com "] ∅ tt)
    = length (scanPool (env := sample.endless) 1
                       ["example.com "; "example.com"; "example.org"] ∅ tt).
Proof.
  assert (Hperm : ["example.com"; "example.org"; "example.com "]
                  ≡ₚ ["example.com "; "example.com"; "example.org"]).
  { symmetry.
    exact (Permutation_cons_append ["example.com"; "example.org"] "example.com "). }
  destruct (scanPool_any_order (env := sample.endless) 1 _ _ ∅ tt tt Hperm)
    as (_ & Hlen & _).
  split; [exact Hperm|]. split; [by vm_compute|exact Hlen].
Defined.

Lemma Resolve_any_order_witness :
  sample.found ≡ₚ rev sample.found
  ∧ map From_ (forwarded (Resolve (env := sample.endless) sample.found ∅ tt))
    = ["example.com"; "example.org"]
  ∧ map From_ (forwarded (Resolve (env := sample.endless) (rev sample.found) ∅ tt))
    = ["example.org"; "example.org"]
  ∧ list_to_set (map Name (forwarded (Resolve (env := sample.endless) sample.found ∅ tt)))
    =@{gset string}
    list_to_set (map Name (forwarded (Resolve (env := sample.endless) (rev sample.found) ∅ tt))).
Proof.
  assert (Hperm : sample.found ≡ₚ rev sample.found) by apply Permutation_rev.
  destruct (Resolve_any_order (env := sample.endless) _ _ ∅ tt tt Hperm)
    as (Hset & _ & _).
  split; [exact Hperm|]. split; [by vm_compute|]. split; [by vm_compute|].
  exact Hset.
Defined.

(** ** No second try *)

Section RetryProofs.

Context {env : Env}.
Variable maxPages : Z.

Lemma ScanStream_marks (d : string) (scanned : gset string) (w : World) :
  normalizeDomain d ∈ scanned_after (ScanStream maxPages [d] scanned w).
Proof.
  cbn [ScanStream].
  destruct (decide (normalizeDomain d ∈ scanned)); [done|].
  destruct (ret (scan maxPages (normalizeDomain d) w)) as [[err|]|m];
    cbn [scanned_after]; set_solver.
Qed.

Lemma Resolve_marks (record : CTRecord) (resolved : gset string) (w : World) :
  Name record ∈ resolved_after (Resolve [record] resolved w).
Proof.
  cbn [Resolve].
  destruct (decide (Name record ∈ resolved)); [done|].
  destruct (wontResolve (Name record)); [cbn; set_solver|].
  destruct (LookupHost w (Name record)) as [w' [addrs err]]. cbn. set_solver.
Qed.

(** X20: a domain is marked as scanned before it is scanned and a name as
    resolved before it is looked up, and the mark stays whatever comes of
    it: once a worker has taken a domain, also one whose scan failed, any
    worker that gets it later passes it over without a request, and once a
    worker has taken a record, also one whose lookup failed, a later record
    with its name is dropped without a lookup. *)
Theorem no_second_try (d : string) (record : CTRecord)
    (scanned resolved : gset string) (w w' : World) :
  ScanStream maxPages [d]
    (scanned_after (ScanStream maxPages [d] scanned w)) w'
  = mkStreamRun [] [] (scanned_after (ScanStream maxPages [d] scanned w))
                (Return None) w'
  ∧ Resolve [record] (resolved_after (Resolve [record] resolved w)) w'
    = mkResolveRun [] [] (resolved_after (Resolve [record] resolved w)) None w'.
Proof.
  split.
  - pose proof (ScanStream_marks d scanned w) as Hin. revert Hin.
    generalize (scanned_after (ScanStream maxPages [d] scanned w)) as marked.
    intros marked Hin. cbn [ScanStream].
    by destruct (decide (normalizeDomain d ∈ marked)).
  - pose proof (Resolve_marks record resolved w) as Hin. revert Hin.
    generalize (resolved_after (Resolve [record] resolved w)) as marked.
    intros marked Hin. cbn [Resolve].
    by destruct (decide (Name record ∈ marked)).
Qed.

End RetryProofs.
